(** * The chat room hub: membership and fan-out of [room.run]

    A shallow embedding of the room of the chat server ([room.run],
    [room.ServeHTTP], [client.write]) and of the Go channel operations
    it relies on, followed by the properties of the coordination loop. *)

From stdpp Require Import gmap strings list fin_maps.
From Stdlib Require Import Ascii.

(** ** Go channels of messages *)

(** A message is a [[]byte]; the room never looks inside. *)
Definition message : Type := list Byte.byte.

(** A buffered [chan []byte]: its capacity, the pending messages (oldest
    first) and whether [close] was called on it. *)
Record chan : Type := Chan {
  ch_cap : nat;
  ch_buf : list message;
  ch_closed : bool
}.

(** [make(chan []byte, n)] *)
Definition make_chan (n : nat) : chan :=
  {| ch_cap := n; ch_buf := []; ch_closed := false |}.

(** The outcome of [select { case ch <- msg: ... default: ... }]. A send
    on a closed channel panics, also inside a [select]; otherwise the send
    case is taken when the buffer has room and the default case when it
    has none. *)
Inductive send_outcome : Type :=
| Enqueued (ch' : chan)
| WouldBlock
| SendOnClosed.

Definition has_room (ch : chan) : bool :=
  (length (ch_buf ch) <? ch_cap ch)%nat.

Definition try_send (msg : message) (ch : chan) : send_outcome :=
  if ch_closed ch then SendOnClosed
  else if has_room ch
       then Enqueued {| ch_cap := ch_cap ch;
                        ch_buf := ch_buf ch ++ [msg];
                        ch_closed := false |}
       else WouldBlock.

(** [close(ch)]: [None] is the panic of closing a closed channel. *)
Definition close_chan (ch : chan) : option chan :=
  if ch_closed ch then None
  else Some {| ch_cap := ch_cap ch; ch_buf := ch_buf ch; ch_closed := true |}.

(** One receive of [for msg := range ch]: the oldest pending message, if
    any. With nothing pending the receiver waits (open channel) or the
    loop ends (closed channel); neither changes the channel. *)
Definition recv_chan (ch : chan) : option (message * chan) :=
  match ch_buf ch with
  | [] => None
  | m :: rest =>
      Some (m, {| ch_cap := ch_cap ch; ch_buf := rest; ch_closed := ch_closed ch |})
  end.

(** ** The room *)

Definition socketBufferSize : nat := 1024.
Definition messageBufferSize : nat := 256.

(** A [*client]: the address of the client object. *)
Abbreviation client := positive (only parsing).

(** What the room hands to [r.tracer.Trace]. The text is [trace_text];
    the client carried by each entry is the one the branch of [run] was
    handling, and is not part of the text. *)
Inductive trace_entry : Type :=
| TJoined (c : client)
| TLeft (c : client)
| TSent (c : client)
| TFailed (c : client).

Definition trace_text (e : trace_entry) : string :=
  match e with
  | TJoined _ => "New client joined"%string
  | TLeft _ => "Client left"%string
  | TSent _ => " -- sent to client"%string
  | TFailed _ => " -- failed to send, cleaned up client"%string
  end.

(** The state the coordination loop works on: [r.clients], the [send]
    channel of every client, and the lines given to the tracer so far.
    Every client is built by [ServeHTTP] with
    [send: make(chan []byte, messageBufferSize)]; [mailboxes] records the
    channels that were written to, read from or closed since, see
    [send_of]. *)
Record state : Type := State {
  clients : gmap client bool;
  mailboxes : gmap client chan;
  tracer : list trace_entry
}.

(** [client.send] *)
Definition send_of (st : state) (c : client) : chan :=
  default (make_chan messageBufferSize) (mailboxes st !! c).

(** The Membership Set: the keys of [r.clients]. *)
Definition members (st : state) : gset client := dom (clients st).

(** [newRoom()] *)
Definition newRoom : state :=
  {| clients := ∅; mailboxes := ∅; tracer := [] |}.

(** The loop either goes on with a new state or panics; a panic in the
    goroutine of [run] is not recovered and ends the program. *)
Inductive result : Type :=
| Ok (st : state)
| Panic (why : string).

(** What arrives on [r.join], [r.leave] and [r.forward]. *)
Inductive event : Type :=
| Join (c : client)
| Leave (c : client)
| Forward (msg : message).

(** [case client := <-r.join] *)
Definition handle_join (c : client) (st : state) : result :=
  Ok {| clients := <[c:=true]> (clients st);
        mailboxes := mailboxes st;
        tracer := tracer st ++ [TJoined c] |}.

(** [delete(r.clients, client); close(client.send)] followed by the trace
    line [e]: the cleanup shared by the leave case and the default case of
    the fan-out. *)
Definition cleanup (e : trace_entry) (c : client) (st : state) : result :=
  match close_chan (send_of st c) with
  | Some ch' =>
      Ok {| clients := delete c (clients st);
            mailboxes := <[c:=ch']> (mailboxes st);
            tracer := tracer st ++ [e] |}
  | None => Panic "close of closed channel"%string
  end.

(** [case client := <-r.leave] *)
Definition handle_leave (c : client) (st : state) : result :=
  cleanup (TLeft c) c st.

(** The body of the fan-out loop for one client: the inner [select]. *)
Definition send_or_evict (msg : message) (c : client) (st : state) : result :=
  match try_send msg (send_of st c) with
  | Enqueued ch' =>
      Ok {| clients := clients st;
            mailboxes := <[c:=ch']> (mailboxes st);
            tracer := tracer st ++ [TSent c] |}
  | WouldBlock => cleanup (TFailed c) c st
  | SendOnClosed => Panic "send on closed channel"%string
  end.

(** [for client := range r.clients { select ... }], visiting the keys in
    the order [ks]. The body deletes no key but the one it is visiting, so
    [range] yields every key that was in the map when the loop started,
    once, in an order Go leaves open: see [range_order]. *)
Fixpoint fan_out (msg : message) (ks : list client) (st : state) : result :=
  match ks with
  | [] => Ok st
  | c :: ks' =>
      match send_or_evict msg c st with
      | Ok st' => fan_out msg ks' st'
      | Panic why => Panic why
      end
  end.

(** The orders in which [range] may yield the keys of [m]. *)
Definition range_order (m : gmap client bool) (ks : list client) : Prop :=
  NoDup ks ∧ ∀ c, c ∈ ks ↔ is_Some (m !! c).

(** The order used when the model is run. *)
Definition keys (m : gmap client bool) : list client := (map_to_list m).*1.

(** One turn of the [for { select { ... } }] of [run], the fan-out going
    through the members in the order [ks]. *)
Definition run_once (ks : list client) (ev : event) (st : state) : result :=
  match ev with
  | Join c => handle_join c st
  | Leave c => handle_leave c st
  | Forward msg => fan_out msg ks st
  end.

(** ** The goroutines around the loop *)

(** [client.read]: [c.room.forward <- msg]. What [c] submits is the
    message alone; the event does not say who sent it. *)
Definition client_read (c : client) (msg : message) : event := Forward msg.

(** [client.write] taking one message out of its [send] channel. *)
Definition client_write (c : client) (st : state) : state :=
  match recv_chan (send_of st c) with
  | Some (_, ch') =>
      {| clients := clients st;
         mailboxes := <[c:=ch']> (mailboxes st);
         tracer := tracer st |}
  | None => st
  end.

(** What happens to the state of the room: the loop takes an event, or
    the write pump of a client takes a message from its mailbox. A visit
    of the fan-out touches the channel of the visited client only, and
    visits each client once; a receive that falls between two visits of
    one fan-out therefore gives the state it would give just before or
    just after that fan-out, and the two kinds of action are taken one at
    a time. *)
Inductive action : Type :=
| Hub (ev : event)
| Drain (c : client).

Definition step (ks : list client) (a : action) (st : state) : result :=
  match a with
  | Hub ev => run_once ks ev st
  | Drain c => Ok (client_write c st)
  end.

(** A step that does not panic, for some order of the fan-out. *)
Definition Step (st : state) (a : action) (st' : state) : Prop :=
  ∃ ks, range_order (clients st) ks ∧ step ks a st = Ok st'.

(** A sequence of actions processed one after the other without a panic. *)
Inductive Run : state → list action → state → Prop :=
| Run_nil st : Run st [] st
| Run_cons st a st1 acts st2 :
    Step st a st1 → Run st1 acts st2 → Run st (a :: acts) st2.

(** The same with the fan-out in the order [keys], to run the model. *)
Fixpoint exec (acts : list action) (st : state) : result :=
  match acts with
  | [] => Ok st
  | a :: acts' =>
      match step (keys (clients st)) a st with
      | Ok st' => exec acts' st'
      | Panic why => Panic why
      end
  end.

(** [ServeHTTP] is the only sender on [r.join], and what it sends is the
    client it has just built: a client that is in no map yet and whose
    [send] channel nobody has touched. *)
Definition fresh (st : state) (c : client) : Prop :=
  clients st !! c = None ∧ mailboxes st !! c = None.

Definition admissible (st : state) (a : action) : Prop :=
  match a with
  | Hub (Join c) => fresh st c
  | _ => True
  end.

(** The states of the room the program can be in. *)
Inductive reachable : state → Prop :=
| reach_new : reachable newRoom
| reach_step st a st' :
    reachable st → admissible st a → Step st a st' → reachable st'.

(** ** The acceptor *)

(** The result of [upgrader.Upgrade]: a socket or an error. *)
Inductive upgrade_result : Type :=
| Upgraded
| UpgradeError (err : string).

(** The program as a whole: serving, or ended with an exit status. An
    unrecovered panic ends it with status 2, [log.Fatal] with status 1. *)
Inductive process : Type :=
| Serving (st : state)
| Exited (status : nat).

(** What the process is given: a request on [/room], whose upgrade gave
    [up] and whose client, when one is built, is [c]; or an action of the
    sessions already there. *)
Inductive input : Type :=
| Request (up : upgrade_result) (c : client)
| Act (a : action).

Definition of_result (r : result) : process :=
  match r with
  | Ok st => Serving st
  | Panic _ => Exited 2
  end.

(** [ServeHTTP] up to [r.join <- client]. When the upgrade fails it calls
    [log.Fatal], which prints and then calls [os.Exit(1)]; the [return]
    that follows is never reached. *)
Definition ServeHTTP (up : upgrade_result) (c : client) (st : state) : process :=
  match up with
  | UpgradeError _ => Exited 1
  | Upgraded => of_result (handle_join c st)
  end.

Definition serve (i : input) (p : process) : process :=
  match p with
  | Exited n => Exited n
  | Serving st =>
      match i with
      | Request up c => ServeHTTP up c st
      | Act a => of_result (step (keys (clients st)) a st)
      end
  end.

Definition serve_all (ins : list input) (p : process) : process :=
  foldl (λ p i, serve i p) p ins.

(** ** What one visit of the fan-out does to an open mailbox

    These restate the inner [select] for a channel that is open; they are
    used to describe the state after a whole fan-out. *)

Definition deliver (msg : message) (ch : chan) : chan :=
  if has_room ch
  then {| ch_cap := ch_cap ch; ch_buf := ch_buf ch ++ [msg]; ch_closed := false |}
  else {| ch_cap := ch_cap ch; ch_buf := ch_buf ch; ch_closed := true |}.

Definition verdict (st : state) (c : client) : trace_entry :=
  if has_room (send_of st c) then TSent c else TFailed c.

Definition visit (msg : message) (c : client) (st : state) : state :=
  {| clients := if has_room (send_of st c) then clients st
                else delete c (clients st);
     mailboxes := <[c := deliver msg (send_of st c)]> (mailboxes st);
     tracer := tracer st ++ [verdict st c] |}.

(** ** Sessions joined and not left since

    [JoinedNotLeft log c]: the log has a join of [c] after which [c] was
    neither reported as having left nor as cleaned up by a failed send. *)
Definition JoinedNotLeft (log : list trace_entry) (c : client) : Prop :=
  ∃ before after,
    log = before ++ TJoined c :: after ∧
    (TLeft c ∉ after) ∧ (TFailed c ∉ after).

(** The trace lines of the join and leave cases, as opposed to those of
    the fan-out, and the line each action puts in the trace by itself. *)
Definition membership_line (e : trace_entry) : bool :=
  match e with
  | TJoined _ | TLeft _ => true
  | TSent _ | TFailed _ => false
  end.

Definition announced (a : action) : list trace_entry :=
  match a with
  | Hub (Join c) => [TJoined c]
  | Hub (Leave c) => [TLeft c]
  | Hub (Forward _) | Drain _ => []
  end.

(** ** Invariants *)

(** Every mailbox has the capacity [ServeHTTP] gave it and holds no more. *)
Definition bounded (st : state) : Prop :=
  ∀ c, ch_cap (send_of st c) = messageBufferSize ∧
       length (ch_buf (send_of st c)) ≤ messageBufferSize.

(** The mailbox of a member is open. *)
Definition members_open (st : state) : Prop :=
  ∀ c, c ∈ members st → ch_closed (send_of st c) = false.

(** The tracer tells who is a member. *)
Definition log_agrees (st : state) : Prop :=
  ∀ c, c ∈ members st ↔ JoinedNotLeft (tracer st) c.

(** ** Scenarios *)

Definition hello : message :=
  [Byte.x68; Byte.x65; Byte.x6c; Byte.x6c; Byte.x6f].
Definition bye : message := [Byte.x62; Byte.x79; Byte.x65].

(** The state after [acts], run from the new room. *)
Definition room_after (acts : list action) : state :=
  match exec acts newRoom with
  | Ok st => st
  | Panic _ => newRoom
  end.

(** Clients 1, 2 and 3 join; 2 and 3 read their mailboxes while 1 does
    not, until the mailbox of 1 is full. *)
Definition slow_reader : list action :=
  [Hub (Join 1); Hub (Join 2); Hub (Join 3)] ++
  mjoin (replicate messageBufferSize [Hub (Forward hello); Drain 2; Drain 3]).

(** Clients 1 and 2 have joined and nothing was sent yet. *)
Definition two_members : list action := [Hub (Join 1); Hub (Join 2)].

(** Then client 1 leaves, and [hello] is forwarded to who is left. *)
Definition one_left : list action := two_members ++ [Hub (Leave 1)].
Definition one_left_then_hello : list action :=
  one_left ++ [Hub (Forward hello)].

(** Whether the joins of [acts], run from [st], are all of new clients. *)
Fixpoint joins_fresh (acts : list action) (st : state) : Prop :=
  match acts with
  | [] => True
  | a :: acts' =>
      admissible st a ∧
      match step (keys (clients st)) a st with
      | Ok st' => joins_fresh acts' st'
      | Panic _ => True
      end
  end.

(** Freshness can be checked, so that a scenario can be shown to be one
    of the program. *)
#[global] Instance fresh_dec st c : Decision (fresh st c).
Proof. unfold fresh. apply _. Defined.

#[global] Instance admissible_dec st a : Decision (admissible st a).
Proof. destruct a as [[c|c|msg]|c]; simpl; apply _. Defined.

Fixpoint joins_freshb (acts : list action) (st : state) : bool :=
  match acts with
  | [] => true
  | a :: acts' =>
      bool_decide (admissible st a) &&
      match step (keys (clients st)) a st with
      | Ok st' => joins_freshb acts' st'
      | Panic _ => true
      end
  end.

(** ** What the sessions see of the room *)

#[global] Instance trace_entry_eq_dec : EqDecision trace_entry.
Proof. solve_decision. Defined.

(** The trace lines written by the two cleanups of [c]. *)
Definition removal_of (c : client) (e : trace_entry) : Prop :=
  e = TLeft c ∨ e = TFailed c.

#[global] Instance removal_of_dec c e : Decision (removal_of c e).
Proof. unfold removal_of. apply _. Defined.

(** The number of cleanup lines about [c] in the trace is 1 when the
    mailbox of [c] is closed and 0 when it is open. *)
Definition closed_once (st : state) : Prop :=
  ∀ c, length (filter (removal_of c) (tracer st)) =
       if ch_closed (send_of st c) then 1 else 0.

(** The messages that [client.read] put on [r.forward], in the order in
    which the loop took them. *)
Definition forwarded (acts : list action) : list message :=
  acts ≫= (λ a, match a with Hub (Forward msg) => [msg] | _ => [] end).

(** What [client.write] of [c] receives from [c.send] in the action [a],
    to hand it to [c.socket.WriteMessage]. *)
Definition handed (c : client) (a : action) (st : state) : list message :=
  match a with
  | Drain c' =>
      if decide (c' = c)
      then match recv_chan (send_of st c) with
           | Some (m, _) => [m]
           | None => []
           end
      else []
  | Hub _ => []
  end.

(** [Run], with the messages that the write pump of [c] received on the
    way. *)
Inductive Pump (c : client) : state → list action → state → list message → Prop :=
| Pump_nil st : Pump c st [] st []
| Pump_cons st a st1 acts st2 out :
    Step st a st1 → Pump c st1 acts st2 out →
    Pump c st (a :: acts) st2 (handed c a st ++ out).

(** The same for [exec]. *)
Fixpoint pumped (c : client) (acts : list action) (st : state) : list message :=
  match acts with
  | [] => []
  | a :: acts' =>
      match step (keys (clients st)) a st with
      | Ok st' => handed c a st ++ pumped c acts' st'
      | Panic _ => []
      end
  end.

(** Two members; 1 is sent [hello] and reads it, then [bye] is sent, a
    third client joins and 2 reads its first message. *)
Definition chatting : list action :=
  [Hub (Forward hello); Drain 1; Hub (Forward bye); Hub (Join 3); Drain 2].

(** The slow reader of [slow_reader] is sent one more message. *)
Definition slow_reader_evicted : list action :=
  slow_reader ++ [Hub (Forward bye)].

(** Client 1 is a member and the room forwards one message more than a
    mailbox holds while nobody reads. *)
Definition stalled : list action :=
  replicate (S messageBufferSize) (Hub (Forward hello)).

(** ** The handlers in front of the room *)

(** [strings.Count(s, sep)] and [strings.Split(s, sep)] for a separator
    of one byte, as in [strings.Split(r.URL.Path, "/")]. *)
Fixpoint strings_Count (s : string) (sep : ascii) : nat :=
  match s with
  | EmptyString => 0
  | String a s' => (if decide (a = sep) then 1 else 0) + strings_Count s' sep
  end.

Fixpoint strings_Split (s : string) (sep : ascii) : list string :=
  match s with
  | EmptyString => [EmptyString]
  | String a s' =>
      if decide (a = sep) then EmptyString :: strings_Split s' sep
      else match strings_Split s' sep with
           | seg :: segs => String a seg :: segs
           | [] => [String a EmptyString]
           end
  end.

(** What the handlers read of an [*http.Request]: [r.URL.Path],
    [r.URL.RawQuery], [r.Host] and the cookies of the request, name and
    value, in the order of the header. *)
Record http_request : Type := HttpRequest {
  r_path : string;
  r_query : string;
  r_host : string;
  r_cookies : list (string * string)
}.

(** An [http.Cookie] as [loginHandler] fills it. *)
Record cookie : Type := Cookie { c_name : string; c_value : string; c_path : string }.

(** What a handler leaves behind: the header map of the
    [http.ResponseWriter] (its [Set-Cookie] lines kept apart, as the
    cookies they were made from), the status given to [WriteHeader] if it
    was called, the bytes accepted by [Write], and the lines given to the
    standard logger. *)
Record conn : Type := Conn {
  w_header : gmap string (list string);
  w_set_cookies : list cookie;
  w_status : option nat;
  w_body : string;
  w_logged : list string
}.

Definition StatusOK : nat := 200.
Definition StatusTemporaryRedirect : nat := 307.
Definition StatusNotFound : nat := 404.

(** [w.Header().Set(key, value)], for a key in canonical form. *)
Definition Header_Set (key value : string) (w : conn) : conn :=
  {| w_header := <[key := [value]]> (w_header w);
     w_set_cookies := w_set_cookies w;
     w_status := w_status w; w_body := w_body w; w_logged := w_logged w |}.

(** [http.SetCookie(w, c)] *)
Definition SetCookie (c : cookie) (w : conn) : conn :=
  {| w_header := w_header w;
     w_set_cookies := w_set_cookies w ++ [c];
     w_status := w_status w; w_body := w_body w; w_logged := w_logged w |}.

(** [w.WriteHeader(code)] for a valid status code: the first call
    counts, a later one is ignored. *)
Definition WriteHeader (code : nat) (w : conn) : conn :=
  match w_status w with
  | Some _ => w
  | None =>
      {| w_header := w_header w; w_set_cookies := w_set_cookies w;
         w_status := Some code; w_body := w_body w; w_logged := w_logged w |}
  end.

(** The statuses that carry no body: 1xx, 204 and 304. *)
Definition bodyAllowedForStatus (code : nat) : bool :=
  negb ((100 <=? code) && (code <=? 199))%nat &&
  negb (code =? 204)%nat && negb (code =? 304)%nat.

(** [fmt.Fprintf(w, ...)] with the formatted text [text]: [w.Write]
    sends the header with status 200 if none was written, and takes the
    bytes unless the status allows no body. *)
Definition Fprintf (text : string) (w : conn) : conn :=
  let w1 := WriteHeader StatusOK w in
  match w_status w1 with
  | Some code =>
      if bodyAllowedForStatus code
      then {| w_header := w_header w1; w_set_cookies := w_set_cookies w1;
              w_status := w_status w1; w_body := w_body w1 +:+ text;
              w_logged := w_logged w1 |}
      else w1
  | None => w1
  end.

(** [log.Println(...)]: the operands, separated by spaces (the time
    stamp and the end of line are left out). *)
Definition log_Println (line : string) (w : conn) : conn :=
  {| w_header := w_header w; w_set_cookies := w_set_cookies w;
     w_status := w_status w; w_body := w_body w;
     w_logged := w_logged w ++ [line] |}.

(** A value given to [panic], by the handler or by the run time. *)
Inductive panic_value : Type :=
| IndexOutOfRange (index len : nat)
| NilDereference
| PanicError (err : string).

(** How a call of a handler ends: it returns, it panics, or [log.Fatalln]
    prints its line (of which [line] is the first operand) and ends the
    program with status 1. *)
Inductive outcome : Type :=
| Returned (w : conn)
| Panicked (v : panic_value)
| Fatal (line : string).

(** An [http.Handler]. *)
Definition handler : Type := http_request → conn → outcome.

(** The errors of [r.Cookie]. *)
Inductive cookie_error : Type :=
| ErrNoCookie
| ErrOther (err : string).

Fixpoint readCookie (name : string) (cs : list (string * string)) : option string :=
  match cs with
  | [] => None
  | (n, v) :: cs' => if decide (n = name) then Some v else readCookie name cs'
  end.

(** [r.Cookie(name)]: the first cookie of that name, or [ErrNoCookie]. *)
Definition Request_Cookie (name : string) (r : http_request) : string + cookie_error :=
  match readCookie name (r_cookies r) with
  | Some v => inl v
  | None => inr ErrNoCookie
  end.

(** [authHandler.ServeHTTP], for the handler [h.next]. *)
Definition authHandler_ServeHTTP (next : handler) : handler :=
  λ r w,
    match Request_Cookie "auth" r with
    | inr ErrNoCookie =>
        Returned (WriteHeader StatusTemporaryRedirect
                    (Header_Set "Location" "/login" w))
    | inr (ErrOther err) => Panicked (PanicError err)
    | inl _ => next r w
    end.

(** [MustAuth(handler)] is [&authHandler{next: handler}]. *)
Definition MustAuth (next : handler) : handler := authHandler_ServeHTTP next.

(** The first three lines of [loginHandler]: the path is split at every
    slash, and [segs[2]] and [segs[3]] are read, in that order. *)
Definition action_and_provider (path : string) : (string * string) + panic_value :=
  let segs := strings_Split path "/"%char in
  match segs !! 2 with
  | None => inr (IndexOutOfRange 2 (length segs))
  | Some action =>
      match segs !! 3 with
      | None => inr (IndexOutOfRange 3 (length segs))
      | Some provider => inl (action, provider)
      end
  end.

(** A tail that [loginHandler] does not look at: nothing, or a slash and
    whatever follows. *)
Definition ignored_tail (tail : string) : Prop :=
  tail = "" ∨ ∃ rest, tail = String "/" rest.

(** The [default] case of the switch on the action. *)
Definition action_not_supported (action : string) (w : conn) : conn :=
  Fprintf ("Auth action " +:+ action +:+ " not supported")
    (WriteHeader StatusNotFound w).

(** [loginHandler] of [auth.go] before the providers were wired in: the
    login case only logs. *)
Definition loginHandler_todo : handler :=
  λ r w,
    match action_and_provider (r_path r) with
    | inr v => Panicked v
    | inl (action, provider) =>
        if decide (action = "login")
        then Returned (log_Println ("TODO handle for " +:+ provider) w)
        else Returned (action_not_supported action w)
    end.

(** What the handlers use of gomniauth, objx and text/template. [None]
    stands for the error of a call, and for the panic of a [Must...]
    function. *)
Record libraries : Type := Libraries {
  provider : Type;
  creds : Type;
  user : Type;
  objx_map : Type;
  template : Type;
  files : Type;
  gomniauth_Provider : string → option provider;
  GetBeginAuthURL : provider → option string;
  CompleteAuth : provider → objx_map → option creds;
  GetUser : provider → creds → option user;
  user_Name : user → string;
  MustFromURLQuery : string → option objx_map;
  MustFromBase64 : string → option objx_map;
  name_MustBase64 : string → string;
  ParseTemplate : files → string → option template;
  Execute : template → string → option objx_map → conn → conn
}.

(** [loginHandler] with the providers. *)
Definition loginHandler (L : libraries) : handler :=
  λ r w,
    match action_and_provider (r_path r) with
    | inr v => Panicked v
    | inl (action, name) =>
        if decide (action = "login") then
          match gomniauth_Provider L name with
          | None => Fatal "Error when trying to get provider"
          | Some p =>
              match GetBeginAuthURL L p with
              | None => Fatal "Error when trying to GetBeginAuthURL for"
              | Some loginUrl =>
                  Returned (WriteHeader StatusTemporaryRedirect
                              (Header_Set "Location" loginUrl w))
              end
          end
        else if decide (action = "callback") then
          match gomniauth_Provider L name with
          | None => Fatal "Error when trying to get provider"
          | Some p =>
              match MustFromURLQuery L (r_query r) with
              | None => Panicked (PanicError "objx: MustFromURLQuery")
              | Some q =>
                  match CompleteAuth L p q with
                  | None => Fatal "Error when trying to complete auth for"
                  | Some cr =>
                      match GetUser L p cr with
                      | None => Fatal "Error when trying to get user from"
                      | Some u =>
                          Returned
                            (WriteHeader StatusTemporaryRedirect
                               (Header_Set "Location" "/chat"
                                  (SetCookie
                                     {| c_name := "auth";
                                        c_value := name_MustBase64 L (user_Name L u);
                                        c_path := "/" |} w)))
                      end
                  end
              end
          end
        else Returned (action_not_supported action w)
    end.

(** A [templateHandler]: its file name, whether [once.Do] has run, and
    the template it holds, if any. *)
Record templateHandler (L : libraries) : Type := TemplateHandler {
  filename : string;
  once_done : bool;
  templ : option (template L)
}.
Arguments TemplateHandler {L} _ _ _.
Arguments filename {L} _.
Arguments once_done {L} _.
Arguments templ {L} _.

(** [&templateHandler{filename: name}], as [main] builds them. *)
Definition new_templateHandler (L : libraries) (name : string) : templateHandler L :=
  {| filename := name; once_done := false; templ := None |}.

(** [t.once.Do(func() { t.templ = template.Must(template.ParseFiles(...)) })]
    with the files [fs]: the handler afterwards, and whether
    [template.Must] panicked. [sync.Once] counts a call that panics as
    done. *)
Definition templateHandler_once (L : libraries) (fs : files L)
    (t : templateHandler L) : templateHandler L * bool :=
  if once_done t then (t, false)
  else match ParseTemplate L fs (filename t) with
       | Some tp => ({| filename := filename t; once_done := true; templ := Some tp |}, false)
       | None => ({| filename := filename t; once_done := true; templ := templ t |}, true)
       end.

(** [templateHandler.ServeHTTP] with the files [fs]: the handler
    afterwards and how the call ends. The panic of [template.Must] carries
    the error of [ParseFiles]; [Execute] on the nil template dereferences
    it; the error that [Execute] returns is dropped, as in the source. *)
Definition templateHandler_ServeHTTP (L : libraries) (fs : files L)
    (t : templateHandler L) (r : http_request) (w : conn)
    : templateHandler L * outcome :=
  let '(t1, must_panicked) := templateHandler_once L fs t in
  if must_panicked then (t1, Panicked (PanicError "template: ParseFiles"))
  else
    let render (userData : option (objx_map L)) :=
      match templ t1 with
      | None => Panicked NilDereference
      | Some tp => Returned (Execute L tp (r_host r) userData w)
      end in
    match Request_Cookie "auth" r with
    | inl v =>
        match MustFromBase64 L v with
        | None => (t1, Panicked (PanicError "objx: MustFromBase64"))
        | Some m => (t1, render (Some m))
        end
    | inr _ => (t1, render None)
    end.

(** The handler that [main] puts on [/chat]:
    [MustAuth(&templateHandler{filename: "chat.html"})], here for a
    template handler in the state [t]. *)
Definition chat_page (L : libraries) (fs : files L) (t : templateHandler L) : handler :=
  MustAuth (λ r w, (templateHandler_ServeHTTP L fs t r w).2).

(** The cookies that a browser sends back after the response [w]. *)
Definition cookies_of (w : conn) : list (string * string) :=
  (λ c, (c_name c, c_value c)) <$> w_set_cookies w.

(** Libraries to run the handlers with: three providers, whose login
    page is their name under [https://]; the credentials and the user are
    the query; a cookie value decodes when it ends in [=]; the only
    template file is [chat.html]. *)
Definition toy_libraries : libraries :=
  {| provider := string; creds := string; user := string;
     objx_map := string; template := string; files := unit;
     gomniauth_Provider := λ name,
       if decide (name ∈ ["facebook"; "github"; "google"]) then Some name else None;
     GetBeginAuthURL := λ p, Some ("https://" +:+ p);
     CompleteAuth := λ _ q, Some q;
     GetUser := λ _ cr, Some cr;
     user_Name := λ u, u;
     MustFromURLQuery := λ q, Some q;
     MustFromBase64 := λ v,
       match String.rev v with
       | String "="%char rest => Some (String.rev rest)
       | _ => None
       end;
     name_MustBase64 := λ n, n +:+ "=";
     ParseTemplate := λ _ name, if decide (name = "chat.html") then Some name else None;
     Execute := λ tp host ud w, Fprintf (tp +:+ " for " +:+ host) w |}.

Definition fresh_conn : conn :=
  {| w_header := ∅; w_set_cookies := []; w_status := None;
     w_body := ""; w_logged := [] |}.

(** Requests to run the handlers on. *)
Definition get (path : string) (cookies : list (string * string)) : http_request :=
  {| r_path := path; r_query := "code=4"; r_host := "localhost:8080";
     r_cookies := cookies |}.

(** * Properties *)

(** Facts about a scenario are settled by running the model. *)
Ltac by_running := vm_compute; reflexivity.

Ltac is_member :=
  apply elem_of_dom; eexists; by_running.

Ltac is_not_member :=
  let Hin := fresh "Hin" in
  let b := fresh "b" in
  intros Hin; unfold members in Hin;
  apply elem_of_dom in Hin as [b Hin]; vm_compute in Hin; discriminate Hin.


(** ** Channels *)

Lemma try_send_closed msg ch :
  ch_closed ch = true → try_send msg ch = SendOnClosed.
Proof. unfold try_send. by intros ->. Qed.

Lemma try_send_room msg ch :
  ch_closed ch = false → has_room ch = true →
  try_send msg ch = Enqueued (deliver msg ch).
Proof. unfold try_send, deliver. by intros -> ->. Qed.

Lemma try_send_full msg ch :
  ch_closed ch = false → has_room ch = false →
  try_send msg ch = WouldBlock.
Proof. unfold try_send. by intros -> ->. Qed.

Lemma close_chan_open ch :
  ch_closed ch = false →
  close_chan ch = Some {| ch_cap := ch_cap ch; ch_buf := ch_buf ch; ch_closed := true |}.
Proof. unfold close_chan. by intros ->. Qed.

Lemma has_room_lt ch : has_room ch = true ↔ length (ch_buf ch) < ch_cap ch.
Proof. unfold has_room. apply Nat.ltb_lt. Qed.

Lemma has_room_ge ch : has_room ch = false ↔ ch_cap ch ≤ length (ch_buf ch).
Proof. unfold has_room. apply Nat.ltb_ge. Qed.

(** ** One visit of the fan-out *)

Lemma send_or_evict_open msg c st :
  ch_closed (send_of st c) = false →
  send_or_evict msg c st = Ok (visit msg c st).
Proof.
  intros Hopen. unfold send_or_evict, visit, verdict, cleanup.
  destruct (has_room (send_of st c)) eqn:Hroom.
  - rewrite (try_send_room _ _ Hopen Hroom). unfold deliver. by rewrite Hroom.
  - rewrite (try_send_full _ _ Hopen Hroom), (close_chan_open _ Hopen).
    unfold deliver. by rewrite Hroom.
Qed.

Lemma send_or_evict_closed msg c st :
  ch_closed (send_of st c) = true →
  send_or_evict msg c st = Panic "send on closed channel"%string.
Proof. intros Hc. unfold send_or_evict. by rewrite (try_send_closed _ _ Hc). Qed.

Lemma send_of_visit_eq msg c st :
  send_of (visit msg c st) c = deliver msg (send_of st c).
Proof. unfold send_of at 1, visit; simpl. by rewrite lookup_insert_eq. Qed.

Lemma send_of_visit_ne msg c c' st :
  c ≠ c' → send_of (visit msg c st) c' = send_of st c'.
Proof. intros Hne. unfold send_of, visit; simpl. by rewrite lookup_insert_ne. Qed.

Lemma clients_visit_ne msg c c' st :
  c ≠ c' → clients (visit msg c st) !! c' = clients st !! c'.
Proof.
  intros Hne. unfold visit; simpl.
  destruct (has_room (send_of st c)); [done|]. by rewrite lookup_delete_ne.
Qed.

Lemma clients_visit_eq msg c st :
  clients (visit msg c st) !! c =
  if has_room (send_of st c) then clients st !! c else None.
Proof.
  unfold visit; simpl.
  destruct (has_room (send_of st c)); [done|]. by rewrite lookup_delete_eq.
Qed.

(** ** The whole fan-out *)

(** The fan-out over pairwise distinct clients either finds a closed
    mailbox and panics, or leaves every visited client with [deliver]
    applied to its mailbox, the full ones removed, and one trace line per
    visit, in the order of the visits. *)
Lemma fan_out_spec msg ks :
  NoDup ks → ∀ st,
  match fan_out msg ks st with
  | Ok st' =>
      (∀ c, c ∈ ks → ch_closed (send_of st c) = false) ∧
      (∀ c, c ∈ ks → send_of st' c = deliver msg (send_of st c)) ∧
      (∀ c, c ∉ ks → send_of st' c = send_of st c) ∧
      (∀ c, c ∈ ks → clients st' !! c =
                     if has_room (send_of st c) then clients st !! c else None) ∧
      (∀ c, c ∉ ks → clients st' !! c = clients st !! c) ∧
      tracer st' = tracer st ++ (verdict st <$> ks)
  | Panic _ => ∃ c, c ∈ ks ∧ ch_closed (send_of st c) = true
  end.
Proof.
  induction 1 as [|c ks Hc Hnd IH]; intros st; simpl.
  { repeat split; try (intros c Hc; by apply elem_of_nil in Hc); try done.
    by rewrite app_nil_r. }
  destruct (ch_closed (send_of st c)) eqn:Hopen.
  { rewrite (send_or_evict_closed _ _ _ Hopen). exists c. split; [left|done]. }
  rewrite (send_or_evict_open _ _ _ Hopen).
  specialize (IH (visit msg c st)).
  destruct (fan_out msg ks (visit msg c st)) as [st'|why].
  - destruct IH as (Hop & Hin & Hout & Hcin & Hcout & Htr).
    assert (Hne : ∀ c', c' ∈ ks → c ≠ c') by (intros c' ? ->; done).
    split_and!.
    + intros c' [->|Hc']%elem_of_cons; [done|].
      rewrite <- (send_of_visit_ne msg c c' st) by auto. auto.
    + intros c' [->|Hc']%elem_of_cons.
      * rewrite Hout by done. apply send_of_visit_eq.
      * rewrite Hin by done. by rewrite send_of_visit_ne by auto.
    + intros c' Hc'. apply not_elem_of_cons in Hc' as [Hcc' Hc'].
      rewrite Hout by done. by rewrite send_of_visit_ne.
    + intros c' [->|Hc']%elem_of_cons.
      * rewrite Hcout by done. apply clients_visit_eq.
      * rewrite Hcin by done.
        rewrite send_of_visit_ne, clients_visit_ne by auto. done.
    + intros c' Hc'. apply not_elem_of_cons in Hc' as [Hcc' Hc'].
      rewrite Hcout by done. by rewrite clients_visit_ne.
    + rewrite Htr. unfold visit at 1; simpl. rewrite <- app_assoc. simpl.
      do 2 f_equal. apply list_fmap_ext. intros i c' Hi.
      assert (c' ∈ ks) by (by eapply list_elem_of_lookup_2).
      unfold verdict. by rewrite send_of_visit_ne by auto.
  - destruct IH as (c' & Hc' & Hcl). exists c'. split; [by right|].
    rewrite <- Hcl. f_equal. symmetry. apply send_of_visit_ne. by intros ->.
Qed.

Lemma fan_out_preserves (P : state → Prop) msg :
  (∀ c st, ch_closed (send_of st c) = false → P st → P (visit msg c st)) →
  ∀ ks st st', P st → fan_out msg ks st = Ok st' → P st'.
Proof.
  intros Hvisit. induction ks as [|c ks IH]; intros st st' HP; simpl.
  { by intros [= <-]. }
  destruct (ch_closed (send_of st c)) eqn:Hopen.
  { by rewrite (send_or_evict_closed _ _ _ Hopen). }
  rewrite (send_or_evict_open _ _ _ Hopen). eauto.
Qed.

(** ** The orders of [range] *)

Lemma keys_range_order (m : gmap client bool) : range_order m (keys m).
Proof.
  split; [apply NoDup_fst_map_to_list|].
  intros c. unfold keys. rewrite list_elem_of_fmap. split.
  - intros ([c' b] & -> & Hin). apply elem_of_map_to_list in Hin. by exists b.
  - intros [b Hb]. exists (c, b). split; [done|]. by apply elem_of_map_to_list.
Qed.

Lemma range_order_members st ks c :
  range_order (clients st) ks → c ∈ ks ↔ c ∈ members st.
Proof. intros [_ H]. unfold members. by rewrite elem_of_dom. Qed.

Lemma range_order_length st ks :
  range_order (clients st) ks → length ks = size (members st).
Proof.
  intros Hord. unfold size, set_size; simpl. apply Permutation_length.
  apply NoDup_Permutation; [apply Hord|apply NoDup_elements|].
  intros c. rewrite elem_of_elements. by apply range_order_members.
Qed.

(** ** The cleanup and the other branches *)

Lemma cleanup_inv e c st st' :
  cleanup e c st = Ok st' →
  ch_closed (send_of st c) = false ∧
  st' = {| clients := delete c (clients st);
           mailboxes := <[c := {| ch_cap := ch_cap (send_of st c);
                                  ch_buf := ch_buf (send_of st c);
                                  ch_closed := true |}]> (mailboxes st);
           tracer := tracer st ++ [e] |}.
Proof.
  unfold cleanup, close_chan.
  destruct (ch_closed (send_of st c)); [done|]. by intros [= <-].
Qed.

Lemma cleanup_closed e c st :
  ch_closed (send_of st c) = true →
  cleanup e c st = Panic "close of closed channel"%string.
Proof. unfold cleanup, close_chan. by intros ->. Qed.

Lemma send_of_insert cl mb tr c ch c' st :
  mailboxes st = mb →
  send_of {| clients := cl; mailboxes := <[c:=ch]> mb; tracer := tr |} c' =
  if decide (c = c') then ch else send_of st c'.
Proof.
  intros <-. unfold send_of; simpl. rewrite lookup_insert.
  by destruct (decide (c = c')).
Qed.

Lemma send_of_same_mailboxes st st' c :
  mailboxes st' = mailboxes st → send_of st' c = send_of st c.
Proof. unfold send_of. by intros ->. Qed.

(** ** The log of joins and leaves *)

Lemma JoinedNotLeft_snoc log e c :
  JoinedNotLeft (log ++ [e]) c ↔
  e = TJoined c ∨ (JoinedNotLeft log c ∧ e ≠ TLeft c ∧ e ≠ TFailed c).
Proof.
  split.
  - intros (before & after & Heq & HL & HF).
    destruct after as [|x after _] using rev_ind.
    + apply app_inj_tail in Heq as [_ ->]. by left.
    + change (before ++ TJoined c :: after ++ [x])
        with (before ++ (TJoined c :: after) ++ [x]) in Heq.
      rewrite app_assoc in Heq. apply app_inj_tail in Heq as [-> ->].
      apply not_elem_of_app in HL as [HL HxL].
      apply not_elem_of_app in HF as [HF HxF].
      right. split_and!.
      * by exists before, after.
      * intros ->. apply HxL. left.
      * intros ->. apply HxF. left.
  - intros [->|((before & after & -> & HL & HF) & HeL & HeF)].
    + exists log, []. split_and!; [done| |]; apply not_elem_of_nil.
    + exists before, (after ++ [e]). split_and!.
      * by rewrite <- app_assoc.
      * apply not_elem_of_app. split; [done|].
        intros He%list_elem_of_singleton. congruence.
      * apply not_elem_of_app. split; [done|].
        intros He%list_elem_of_singleton. congruence.
Qed.

Lemma JoinedNotLeft_nil c : ¬ JoinedNotLeft [] c.
Proof. intros (before & after & Heq & _). by destruct before. Qed.

(** ** Steps *)

Lemma Step_inv st a st' :
  Step st a st' →
  match a with
  | Hub (Join c) =>
      st' = {| clients := <[c:=true]> (clients st);
               mailboxes := mailboxes st;
               tracer := tracer st ++ [TJoined c] |}
  | Hub (Leave c) => cleanup (TLeft c) c st = Ok st'
  | Hub (Forward msg) =>
      ∃ ks, range_order (clients st) ks ∧ fan_out msg ks st = Ok st'
  | Drain c => st' = client_write c st
  end.
Proof.
  intros (ks & Hord & Hstep). destruct a as [[c|c|msg]|c]; simpl in Hstep.
  - by injection Hstep as <-.
  - done.
  - by exists ks.
  - by injection Hstep as <-.
Qed.

Lemma send_of_client_write c c' st :
  send_of (client_write c st) c' =
  if decide (c = c')
  then {| ch_cap := ch_cap (send_of st c);
          ch_buf := tail (ch_buf (send_of st c));
          ch_closed := ch_closed (send_of st c) |}
  else send_of st c'.
Proof.
  unfold client_write, recv_chan.
  destruct (ch_buf (send_of st c)) as [|m rest] eqn:Hbuf.
  - destruct (decide (c = c')) as [<-|]; [|done].
    simpl. rewrite <- Hbuf. by destruct (send_of st c).
  - by rewrite (send_of_insert _ _ _ _ _ _ st eq_refl).
Qed.

Lemma Run_preserves (P : state → Prop) :
  (∀ st a st', P st → Step st a st' → P st') →
  ∀ st acts st', Run st acts st' → P st → P st'.
Proof. intros HP st acts st' Hrun. induction Hrun; eauto. Qed.

(** ** The capacity is kept *)

Lemma bounded_new : bounded newRoom.
Proof. intros c. unfold send_of; simpl. rewrite lookup_empty; simpl. lia. Qed.

Lemma bounded_visit msg c st : bounded st → bounded (visit msg c st).
Proof.
  intros Hb c'. destruct (decide (c = c')) as [<-|Hne].
  - rewrite send_of_visit_eq. unfold deliver. destruct (Hb c) as [Hcap Hlen].
    destruct (has_room (send_of st c)) eqn:Hroom; simpl; [|done].
    apply has_room_lt in Hroom. rewrite length_app; simpl. lia.
  - rewrite send_of_visit_ne by done. apply Hb.
Qed.

Lemma bounded_step st a st' : bounded st → Step st a st' → bounded st'.
Proof.
  intros Hb Hstep. apply Step_inv in Hstep.
  destruct a as [[c|c|msg]|c].
  - subst st'. intros c'. rewrite (send_of_same_mailboxes st) by done. apply Hb.
  - apply cleanup_inv in Hstep as [_ ->]. intros c'.
    rewrite (send_of_insert _ _ _ _ _ _ st eq_refl).
    destruct (decide (c = c')) as [<-|]; simpl; apply Hb.
  - destruct Hstep as (ks & _ & Hfan).
    eapply (fan_out_preserves bounded); [|done..].
    intros; by apply bounded_visit.
  - subst st'. intros c'. rewrite send_of_client_write.
    destruct (decide (c = c')) as [<-|]; simpl; [|apply Hb].
    destruct (Hb c) as [Hcap Hlen]. split; [done|].
    destruct (ch_buf (send_of st c)); simpl in *; lia.
Qed.

Lemma bounded_reachable st : reachable st → bounded st.
Proof.
  induction 1 as [|st a st' _ IH _ Hstep]; [apply bounded_new|].
  by eapply bounded_step.
Qed.

(** ** The mailbox of a member is open *)

Lemma members_open_visit msg c st :
  members_open st → members_open (visit msg c st).
Proof.
  intros Hop c' Hin. unfold members in *. apply elem_of_dom in Hin.
  destruct (decide (c = c')) as [<-|Hne].
  - rewrite clients_visit_eq in Hin. rewrite send_of_visit_eq. unfold deliver.
    destruct (has_room (send_of st c)); [done|]. by destruct Hin.
  - rewrite clients_visit_ne in Hin by done. rewrite send_of_visit_ne by done.
    apply Hop. by apply elem_of_dom.
Qed.

Lemma members_open_step st a st' :
  members_open st → admissible st a → Step st a st' → members_open st'.
Proof.
  intros Hop Hadm Hstep. apply Step_inv in Hstep.
  destruct a as [[c|c|msg]|c].
  - subst st'. intros c' Hin. rewrite (send_of_same_mailboxes st) by done.
    unfold members in Hin; simpl in Hin. apply elem_of_dom in Hin.
    destruct (decide (c = c')) as [<-|Hne].
    + destruct Hadm as [_ Hmb]. unfold send_of. by rewrite Hmb.
    + rewrite lookup_insert_ne in Hin by done. apply Hop. by apply elem_of_dom.
  - apply cleanup_inv in Hstep as [_ ->]. intros c' Hin.
    unfold members in Hin; simpl in Hin. apply elem_of_dom in Hin.
    rewrite (send_of_insert _ _ _ _ _ _ st eq_refl).
    destruct (decide (c = c')) as [<-|Hne].
    + rewrite lookup_delete_eq in Hin. by destruct Hin.
    + rewrite lookup_delete_ne in Hin by done. apply Hop. by apply elem_of_dom.
  - destruct Hstep as (ks & _ & Hfan).
    eapply (fan_out_preserves members_open); [|done..].
    intros; by apply members_open_visit.
  - subst st'. intros c' Hin. rewrite send_of_client_write.
    assert (c' ∈ members st) as Hin'.
    { unfold members, client_write in *.
      by destruct (recv_chan (send_of st c)) as [[? ?]|]. }
    destruct (decide (c = c')) as [<-|]; simpl; by apply Hop.
Qed.

Lemma members_open_reachable st : reachable st → members_open st.
Proof.
  induction 1 as [|st a st' _ IH Hadm Hstep].
  - intros c Hin. unfold members in Hin; simpl in Hin. set_solver.
  - by eapply members_open_step.
Qed.

(** ** The tracer tells who is a member *)

Lemma log_agrees_new : log_agrees newRoom.
Proof.
  intros c. split.
  - unfold members; simpl. set_solver.
  - intros H. by apply JoinedNotLeft_nil in H.
Qed.

Lemma log_agrees_remove e c st :
  e = TLeft c ∨ e = TFailed c →
  log_agrees st →
  ∀ mb, log_agrees {| clients := delete c (clients st);
                      mailboxes := mb;
                      tracer := tracer st ++ [e] |}.
Proof.
  intros He Hlog mb c'. unfold members; simpl.
  rewrite JoinedNotLeft_snoc, dom_delete_L, elem_of_difference.
  rewrite not_elem_of_singleton. fold (members st). rewrite (Hlog c').
  split.
  - intros [Hj Hne]. right. split; [done|].
    destruct He as [-> | ->]; split; congruence.
  - intros [->|(Hj & HeL & HeF)]; [by destruct He|].
    split; [done|]. destruct He as [-> | ->]; congruence.
Qed.

Lemma log_agrees_visit msg c st : log_agrees st → log_agrees (visit msg c st).
Proof.
  intros Hlog. unfold visit, verdict.
  destruct (has_room (send_of st c)).
  - intros c'. unfold members; simpl. fold (members st).
    rewrite JoinedNotLeft_snoc, (Hlog c'). split; [|intros [|[? _]]; done].
    intros Hj. right. by split_and!.
  - apply log_agrees_remove; auto.
Qed.

Lemma clients_client_write c st : clients (client_write c st) = clients st.
Proof. unfold client_write. by destruct (recv_chan _) as [[? ?]|]. Qed.

Lemma tracer_client_write c st : tracer (client_write c st) = tracer st.
Proof. unfold client_write. by destruct (recv_chan _) as [[? ?]|]. Qed.

Lemma log_agrees_step st a st' : log_agrees st → Step st a st' → log_agrees st'.
Proof.
  intros Hlog Hstep. apply Step_inv in Hstep.
  destruct a as [[c|c|msg]|c].
  - subst st'. intros c'. unfold members; simpl. fold (members st).
    rewrite JoinedNotLeft_snoc, dom_insert_L, elem_of_union, elem_of_singleton.
    fold (members st). rewrite (Hlog c'). split.
    + intros [->|Hj]; [by left|]. right. by split_and!.
    + intros [[= ->]|[Hj _]]; auto.
  - apply cleanup_inv in Hstep as [_ ->]. apply log_agrees_remove; auto.
  - destruct Hstep as (ks & _ & Hfan).
    eapply (fan_out_preserves log_agrees); [|done..].
    intros; by apply log_agrees_visit.
  - subst st'. intros c'. unfold members.
    rewrite clients_client_write, tracer_client_write. apply Hlog.
Qed.

(** ** The fan-out, once it is known not to panic *)

Lemma fan_out_ok msg ks st st' :
  NoDup ks → fan_out msg ks st = Ok st' →
  (∀ c, c ∈ ks → ch_closed (send_of st c) = false) ∧
  (∀ c, c ∈ ks → send_of st' c = deliver msg (send_of st c)) ∧
  (∀ c, c ∉ ks → send_of st' c = send_of st c) ∧
  (∀ c, c ∈ ks → clients st' !! c =
                 if has_room (send_of st c) then clients st !! c else None) ∧
  (∀ c, c ∉ ks → clients st' !! c = clients st !! c) ∧
  tracer st' = tracer st ++ (verdict st <$> ks).
Proof.
  intros Hnd Hfan. pose proof (fan_out_spec msg ks Hnd st) as H.
  by rewrite Hfan in H.
Qed.

Lemma fan_out_total msg ks st :
  NoDup ks → (∀ c, c ∈ ks → ch_closed (send_of st c) = false) →
  ∃ st', fan_out msg ks st = Ok st'.
Proof.
  intros Hnd Hopen. pose proof (fan_out_spec msg ks Hnd st) as H.
  destruct (fan_out msg ks st) as [st'|why]; [by exists st'|].
  destruct H as (c & Hc & Hcl). rewrite Hopen in Hcl; done.
Qed.

Lemma verdict_sent st (ks : list client) c :
  TSent c ∈ verdict st <$> ks ↔ c ∈ ks ∧ has_room (send_of st c) = true.
Proof.
  rewrite list_elem_of_fmap. unfold verdict. split.
  - intros (c' & Heq & Hin). destruct (has_room (send_of st c')) eqn:Hr; [|done].
    injection Heq as ->. done.
  - intros [Hin Hr]. exists c. by rewrite Hr.
Qed.

Lemma verdict_failed st (ks : list client) c :
  TFailed c ∈ verdict st <$> ks ↔ c ∈ ks ∧ has_room (send_of st c) = false.
Proof.
  rewrite list_elem_of_fmap. unfold verdict. split.
  - intros (c' & Heq & Hin). destruct (has_room (send_of st c')) eqn:Hr; [done|].
    injection Heq as ->. done.
  - intros [Hin Hr]. exists c. by rewrite Hr.
Qed.

(** ** Closed mailboxes *)

(** Whatever the step, a closed mailbox stays closed and receives nothing:
    it can only lose messages from the front, to its reader. *)
Lemma closed_step st a st' s :
  ch_closed (send_of st s) = true → Step st a st' →
  ch_closed (send_of st' s) = true ∧
  (∃ k, ch_buf (send_of st' s) = drop k (ch_buf (send_of st s))) ∧
  (∃ out, tracer st' = tracer st ++ out ∧ TSent s ∉ out).
Proof.
  intros Hcl Hstep. apply Step_inv in Hstep.
  destruct a as [[c|c|msg]|c].
  - subst st'. rewrite (send_of_same_mailboxes st) by done. split_and!.
    + done.
    + by exists 0.
    + exists [TJoined c]. split; [done|]. by intros [=]%list_elem_of_singleton.
  - apply cleanup_inv in Hstep as [Hopen ->].
    rewrite (send_of_insert _ _ _ _ _ _ st eq_refl).
    destruct (decide (c = s)) as [->|Hne]; [congruence|]. split_and!.
    + done.
    + by exists 0.
    + exists [TLeft c]. split; [done|]. by intros [=]%list_elem_of_singleton.
  - destruct Hstep as (ks & [Hnd Hkeys] & Hfan).
    destruct (fan_out_ok _ _ _ _ Hnd Hfan) as (Hopen & _ & Hout & _ & _ & Htr).
    assert (s ∉ ks) as Hs by (intros Hin; apply Hopen in Hin; congruence).
    rewrite (Hout _ Hs). split_and!.
    + done.
    + by exists 0.
    + exists (verdict st <$> ks). split; [done|].
      rewrite verdict_sent. by intros [? _].
  - subst st'. rewrite send_of_client_write, tracer_client_write.
    destruct (decide (c = s)) as [->|Hne]; simpl; split_and!; try done.
    + by exists 1.
    + exists []. split; [by rewrite app_nil_r|apply not_elem_of_nil].
    + by exists 0.
    + exists []. split; [by rewrite app_nil_r|apply not_elem_of_nil].
Qed.

Lemma closed_run st acts st' s :
  Run st acts st' → ch_closed (send_of st s) = true →
  ch_closed (send_of st' s) = true ∧
  (∃ k, ch_buf (send_of st' s) = drop k (ch_buf (send_of st s))) ∧
  (∃ out, tracer st' = tracer st ++ out ∧ TSent s ∉ out).
Proof.
  induction 1 as [st|st a st1 acts st2 Hstep _ IH]; intros Hcl.
  - split_and!; [done|by exists 0|].
    exists []. split; [by rewrite app_nil_r|apply not_elem_of_nil].
  - destruct (closed_step _ _ _ _ Hcl Hstep) as (Hcl1 & [k1 Hk1] & out1 & Ht1 & Ho1).
    destruct (IH Hcl1) as (Hcl2 & [k2 Hk2] & out2 & Ht2 & Ho2). split_and!.
    + done.
    + exists (k1 + k2). by rewrite Hk2, Hk1, drop_drop.
    + exists (out1 ++ out2). split.
      * by rewrite Ht2, Ht1, app_assoc.
      * by apply not_elem_of_app.
Qed.

(** A Forward leaves a closed mailbox exactly as it was. *)
Lemma closed_forward st msg st' s :
  ch_closed (send_of st s) = true → Step st (Hub (Forward msg)) st' →
  send_of st' s = send_of st s ∧
  (∃ out, tracer st' = tracer st ++ out ∧ (TSent s ∉ out)).
Proof.
  intros Hcl Hstep. apply Step_inv in Hstep as (ks & [Hnd Hkeys] & Hfan).
  destruct (fan_out_ok _ _ _ _ Hnd Hfan) as (Hopen & _ & Hout & _ & _ & Htr).
  assert (s ∉ ks) as Hs by (intros Hin; apply Hopen in Hin; congruence).
  split; [by apply Hout|].
  exists (verdict st <$> ks). split; [done|].
  rewrite verdict_sent. by intros [? _].
Qed.

(** A step that takes a member out of the room closes its mailbox and
    puts nothing in it. *)
Lemma removed_step st a st' s :
  s ∈ members st → Step st a st' → s ∉ members st' →
  ch_closed (send_of st' s) = true ∧
  ch_buf (send_of st' s) = ch_buf (send_of st s).
Proof.
  intros Hin Hstep Hout. apply Step_inv in Hstep.
  destruct a as [[c|c|msg]|c].
  - subst st'. exfalso. apply Hout. unfold members in *; simpl.
    rewrite dom_insert_L. set_solver.
  - apply cleanup_inv in Hstep as [Hopen ->].
    rewrite (send_of_insert _ _ _ _ _ _ st eq_refl).
    destruct (decide (c = s)) as [->|Hne]; [done|].
    exfalso. apply Hout. unfold members in *; simpl.
    rewrite dom_delete_L. set_solver.
  - destruct Hstep as (ks & Hord & Hfan).
    pose proof (proj2 (range_order_members st ks s Hord) Hin) as Hks.
    destruct (fan_out_ok _ _ _ _ (proj1 Hord) Hfan) as (_ & Hdel & _ & Hcl & _ & _).
    rewrite (Hdel _ Hks). unfold deliver.
    destruct (has_room (send_of st s)) eqn:Hroom; [|done].
    exfalso. apply Hout. unfold members in *. apply elem_of_dom.
    rewrite (Hcl _ Hks), Hroom. by apply elem_of_dom.
  - subst st'. exfalso. apply Hout. unfold members in *.
    by rewrite clients_client_write.
Qed.

(** ** Running the model gives states of the program *)

Lemma Step_keys a st st' :
  step (keys (clients st)) a st = Ok st' → Step st a st'.
Proof. intros H. exists (keys (clients st)). split; [apply keys_range_order|done]. Qed.

Lemma exec_Run acts : ∀ st st', exec acts st = Ok st' → Run st acts st'.
Proof.
  induction acts as [|a acts IH]; intros st st'; simpl.
  - intros [= <-]. constructor.
  - destruct (step (keys (clients st)) a st) as [st1|why] eqn:Hstep; [|done].
    intros Hexec. econstructor; [by apply Step_keys|by apply IH].
Qed.

Lemma exec_reachable acts :
  ∀ st st', reachable st → joins_fresh acts st → exec acts st = Ok st' →
  reachable st'.
Proof.
  induction acts as [|a acts IH]; intros st st' Hreach; simpl.
  - by intros _ [= <-].
  - intros [Hadm Hrest].
    destruct (step (keys (clients st)) a st) as [st1|why] eqn:Hstep; [|done].
    intros Hexec. apply (IH st1); [|done..].
    eapply reach_step; [done..|by apply Step_keys].
Qed.

Lemma joins_freshb_true acts :
  ∀ st, joins_freshb acts st = true → joins_fresh acts st.
Proof.
  induction acts as [|a acts IH]; intros st; simpl; [done|].
  intros [Hadm Hrest]%andb_true_iff.
  split; [by apply bool_decide_eq_true in Hadm|].
  destruct (step (keys (clients st)) a st); [by apply IH|done].
Qed.

Lemma slow_reader_exec : exec slow_reader newRoom = Ok (room_after slow_reader).
Proof. by_running. Qed.

Lemma reachable_slow_reader : reachable (room_after slow_reader).
Proof.
  apply (exec_reachable slow_reader newRoom);
    [constructor| |apply slow_reader_exec].
  apply joins_freshb_true. by_running.
Qed.

(** ** The fan-out from the members' point of view *)

Lemma fan_out_members msg ks st st' :
  range_order (clients st) ks → fan_out msg ks st = Ok st' →
  ∀ c, c ∈ members st' ↔ c ∈ members st ∧ has_room (send_of st c) = true.
Proof.
  intros Hord Hfan c.
  destruct (fan_out_ok _ _ _ _ (proj1 Hord) Hfan) as (_ & _ & _ & Hin & Hout & _).
  rewrite <- (range_order_members st ks c Hord).
  unfold members. rewrite elem_of_dom.
  destruct (decide (c ∈ ks)) as [Hc|Hc].
  - rewrite (Hin _ Hc). destruct (has_room (send_of st c)).
    + split; [intros _; by split|]. intros _. by apply Hord.
    + split; [by intros [? ?]|by intros [_ ?]].
  - rewrite (Hout _ Hc). split; [|by intros [? _]].
    intros Hsome. exfalso. apply Hc. by apply Hord.
Qed.

Lemma fan_out_member_mailbox msg ks st st' c :
  range_order (clients st) ks → fan_out msg ks st = Ok st' →
  c ∈ members st → send_of st' c = deliver msg (send_of st c).
Proof.
  intros Hord Hfan Hc.
  destruct (fan_out_ok _ _ _ _ (proj1 Hord) Hfan) as (_ & Hin & _).
  apply Hin. by apply (range_order_members st ks c Hord).
Qed.

Lemma fan_out_other_mailbox msg ks st st' c :
  range_order (clients st) ks → fan_out msg ks st = Ok st' →
  c ∉ members st → send_of st' c = send_of st c.
Proof.
  intros Hord Hfan Hc.
  destruct (fan_out_ok _ _ _ _ (proj1 Hord) Hfan) as (_ & _ & Hout & _).
  apply Hout. by rewrite (range_order_members st ks c Hord).
Qed.

Lemma fan_out_reachable msg ks st :
  reachable st → range_order (clients st) ks →
  ∃ st', fan_out msg ks st = Ok st'.
Proof.
  intros Hreach Hord. apply fan_out_total; [apply Hord|].
  intros c Hc. apply (members_open_reachable _ Hreach).
  by apply (range_order_members st ks c Hord).
Qed.

Lemma has_room_reachable st c :
  reachable st →
  has_room (send_of st c) = true ↔
  length (ch_buf (send_of st c)) < messageBufferSize.
Proof.
  intros Hreach. destruct (bounded_reachable _ Hreach c) as [Hcap _].
  by rewrite has_room_lt, Hcap.
Qed.

Lemma deliver_room msg ch :
  has_room ch = true →
  deliver msg ch =
  {| ch_cap := ch_cap ch; ch_buf := ch_buf ch ++ [msg]; ch_closed := false |}.
Proof. unfold deliver. by intros ->. Qed.

Lemma deliver_full msg ch :
  has_room ch = false →
  deliver msg ch =
  {| ch_cap := ch_cap ch; ch_buf := ch_buf ch; ch_closed := true |}.
Proof. unfold deliver. by intros ->. Qed.

Lemma reachable_two_members : reachable (room_after two_members).
Proof.
  apply (exec_reachable two_members newRoom); [constructor| |reflexivity].
  apply joins_freshb_true. by_running.
Qed.

(** The two ways in which the program itself leaves a session twice. *)
Example leave_twice_panics :
  exec [Hub (Join 1); Hub (Leave 1); Hub (Leave 1)] newRoom =
  Panic "close of closed channel"%string.
Proof. by_running. Qed.

Example leave_after_eviction_panics :
  exec (slow_reader ++ [Hub (Forward bye); Hub (Leave 1)]) newRoom =
  Panic "close of closed channel"%string.
Proof. by_running. Qed.

(** ** The trace follows the events *)

Lemma membership_lines_verdicts st (ks : list client) :
  filter (λ e, membership_line e = true) (verdict st <$> ks) = [].
Proof.
  induction ks as [|c ks IH]; [done|]. simpl.
  rewrite filter_cons_False; [done|].
  unfold verdict. by destruct (has_room (send_of st c)).
Qed.

Lemma membership_lines_step st a st' :
  Step st a st' →
  filter (λ e, membership_line e = true) (tracer st') =
  filter (λ e, membership_line e = true) (tracer st) ++ announced a.
Proof.
  intros Hstep. apply Step_inv in Hstep.
  destruct a as [[c|c|msg]|c]; simpl.
  - subst st'. simpl. by rewrite filter_app.
  - apply cleanup_inv in Hstep as [_ ->]. simpl. by rewrite filter_app.
  - destruct Hstep as (ks & [Hnd _] & Hfan).
    destruct (fan_out_ok _ _ _ _ Hnd Hfan) as (_ & _ & _ & _ & _ & ->).
    by rewrite filter_app, membership_lines_verdicts.
  - subst st'. by rewrite tracer_client_write, app_nil_r.
Qed.

Lemma membership_lines_run st acts st' :
  Run st acts st' →
  filter (λ e, membership_line e = true) (tracer st') =
  filter (λ e, membership_line e = true) (tracer st) ++ (acts ≫= announced).
Proof.
  induction 1 as [st|st a st1 acts st2 Hstep _ IH]; simpl.
  - by rewrite app_nil_r.
  - by rewrite IH, (membership_lines_step _ _ _ Hstep), app_assoc.
Qed.

(** * The properties of the room *)


(** C1, on the code. Once a step has taken [s] out of the Membership
    Set, be it a Leave or a failed send, a Leave of [s] that the loop
    receives then or after any number of further events panics on the
    [close] of the channel that the first cleanup closed: the second
    Leave is not a no-op, and the loop does not go on to later events. *)
Theorem C1_leave_of_absent_session_panics st a st1 acts st2 s ks :
  s ∈ members st → Step st a st1 → s ∉ members st1 →
  Run st1 acts st2 →
  run_once ks (Leave s) st2 = Panic "close of closed channel"%string.
Proof.
  intros Hin Hstep Hout Hrun.
  destruct (removed_step _ _ _ _ Hin Hstep Hout) as [Hcl _].
  destruct (closed_run _ _ _ _ Hrun Hcl) as [Hcl2 _].
  simpl. unfold handle_leave. by apply cleanup_closed.
Qed.

Lemma C1_leave_of_absent_session_panics_witness :
  run_once [] (Leave 1) (room_after one_left_then_hello) =
  Panic "close of closed channel"%string.
Proof.
  apply (C1_leave_of_absent_session_panics (room_after two_members)
           (Hub (Leave 1)) (room_after one_left) [Hub (Forward hello)]
           (room_after one_left_then_hello) 1 []).
  - is_member.
  - apply Step_keys. by_running.
  - is_not_member.
  - apply exec_Run. by_running.
Defined.

(** C2, on the code. A request whose upgrade fails creates no session and
    sends nothing to the room, but [log.Fatal] ends the program: whatever
    the state of the room and whatever comes after the request, the
    process has exited with status 1 and nothing more is served. *)
Theorem C2_failed_upgrade_ends_the_program err c st rest :
  ServeHTTP (UpgradeError err) c st = Exited 1 ∧
  serve_all (Request (UpgradeError err) c :: rest) (Serving st) = Exited 1.
Proof.
  split; [done|]. unfold serve_all. simpl.
  induction rest as [|i rest IH]; [done|]. simpl. apply IH.
Qed.

(** C3. In a state of the program, a Forward that finds the mailbox of a
    member [s] at capacity does not panic; it removes from the Membership
    Set exactly the members whose mailbox is at capacity, [s] among them
    and [s] alone when no other mailbox is full;
    it closes the mailbox of [s] and leaves it as a Leave of [s] would;
    it traces the failed send for [s]; and every member whose mailbox has
    room stays a member and gets the message. *)
Theorem C3_forward_evicts_the_full_mailbox st ks msg s :
  reachable st → range_order (clients st) ks →
  s ∈ members st → length (ch_buf (send_of st s)) = messageBufferSize →
  ∃ st', run_once ks (Forward msg) st = Ok st' ∧
    (∀ c, c ∈ members st' ↔
          c ∈ members st ∧ length (ch_buf (send_of st c)) < messageBufferSize) ∧
    (s ∉ members st') ∧
    ((∀ c, c ∈ members st → c ≠ s →
           length (ch_buf (send_of st c)) < messageBufferSize) →
     members st' = members st ∖ {[s]}) ∧
    ch_closed (send_of st' s) = true ∧
    ch_buf (send_of st' s) = ch_buf (send_of st s) ∧
    (∃ stL, handle_leave s st = Ok stL ∧
            (s ∉ members stL) ∧ send_of st' s = send_of stL s) ∧
    (∃ out, tracer st' = tracer st ++ out ∧ TFailed s ∈ out ∧ (TSent s ∉ out) ∧
            trace_text (TFailed s) = " -- failed to send, cleaned up client"%string) ∧
    (∀ c, c ∈ members st → length (ch_buf (send_of st c)) < messageBufferSize →
          c ∈ members st' ∧
          send_of st' c = {| ch_cap := ch_cap (send_of st c);
                             ch_buf := ch_buf (send_of st c) ++ [msg];
                             ch_closed := false |}).
Proof.
  intros Hreach Hord Hs Hfull. simpl.
  destruct (fan_out_reachable msg ks st Hreach Hord) as [st' Hfan].
  pose proof (fan_out_members _ _ _ _ Hord Hfan) as Hmem.
  assert (has_room (send_of st s) = false) as Hnoroom.
  { apply not_true_is_false. rewrite has_room_reachable by done. lia. }
  assert (ch_closed (send_of st s) = false) as Hopen
    by (by apply (members_open_reachable _ Hreach)).
  assert (send_of st' s = {| ch_cap := ch_cap (send_of st s);
                             ch_buf := ch_buf (send_of st s);
                             ch_closed := true |}) as Hmail.
  { rewrite (fan_out_member_mailbox _ _ _ _ _ Hord Hfan Hs).
    by apply deliver_full. }
  exists st'. split; [done|]. split_and!.
  - intros c. rewrite Hmem. by rewrite has_room_reachable.
  - rewrite Hmem. intros [_ Hr]. congruence.
  - intros Hothers. apply set_eq. intros c.
    rewrite Hmem, elem_of_difference, elem_of_singleton. split.
    + intros [Hc Hr]. split; [done|]. intros ->. congruence.
    + intros [Hc Hne]. split; [done|]. apply has_room_reachable; auto.
  - by rewrite Hmail.
  - by rewrite Hmail.
  - unfold handle_leave, cleanup. rewrite (close_chan_open _ Hopen).
    eexists. split; [reflexivity|]. split.
    + unfold members; simpl. rewrite dom_delete_L.
      rewrite elem_of_difference, elem_of_singleton. by intros [_ ?].
    + rewrite Hmail. by rewrite (send_of_insert _ _ _ _ _ _ st eq_refl), decide_True.
  - destruct (fan_out_ok _ _ _ _ (proj1 Hord) Hfan) as (_ & _ & _ & _ & _ & Htr).
    exists (verdict st <$> ks). split_and!; [done| | |done].
    + apply verdict_failed. split; [|done].
      by apply (range_order_members st ks s Hord).
    + rewrite verdict_sent. intros [_ Hr]. congruence.
  - intros c Hc Hlt.
    assert (has_room (send_of st c) = true) as Hr
      by (by apply has_room_reachable).
    split; [by apply Hmem|].
    rewrite (fan_out_member_mailbox _ _ _ _ _ Hord Hfan Hc).
    by apply deliver_room.
Qed.

Lemma C3_forward_evicts_the_full_mailbox_witness :
  ∃ st', run_once (keys (clients (room_after slow_reader))) (Forward bye)
           (room_after slow_reader) = Ok st' ∧
    (∀ c, c ∈ members st' ↔
          c ∈ members (room_after slow_reader) ∧
          length (ch_buf (send_of (room_after slow_reader) c)) < messageBufferSize) ∧
    (1%positive ∉ members st') ∧
    ((∀ c, c ∈ members (room_after slow_reader) → c ≠ 1%positive →
           length (ch_buf (send_of (room_after slow_reader) c)) < messageBufferSize) →
     members st' = members (room_after slow_reader) ∖ {[1%positive]}) ∧
    ch_closed (send_of st' 1) = true ∧
    ch_buf (send_of st' 1) = ch_buf (send_of (room_after slow_reader) 1) ∧
    (∃ stL, handle_leave 1 (room_after slow_reader) = Ok stL ∧
            (1%positive ∉ members stL) ∧ send_of st' 1 = send_of stL 1) ∧
    (∃ out, tracer st' = tracer (room_after slow_reader) ++ out ∧
            TFailed 1 ∈ out ∧ (TSent 1 ∉ out) ∧
            trace_text (TFailed 1) = " -- failed to send, cleaned up client"%string) ∧
    (∀ c, c ∈ members (room_after slow_reader) →
          length (ch_buf (send_of (room_after slow_reader) c)) < messageBufferSize →
          c ∈ members st' ∧
          send_of st' c =
          {| ch_cap := ch_cap (send_of (room_after slow_reader) c);
             ch_buf := ch_buf (send_of (room_after slow_reader) c) ++ [bye];
             ch_closed := false |}).
Proof.
  apply (C3_forward_evicts_the_full_mailbox (room_after slow_reader)
           (keys (clients (room_after slow_reader))) bye 1).
  - apply reachable_slow_reader.
  - apply keys_range_order.
  - is_member.
  - by_running.
Defined.

(** C4. In a state of the program in which every member's mailbox has
    free capacity, a Forward does not panic; it leaves [r.clients] as it
    was, appends the message to the mailbox of every member, leaves every
    other mailbox alone, and does so by one visit per member (one
    [sent to client] line each, N lines for N members). *)
Theorem C4_forward_reaches_exactly_the_members st ks msg :
  reachable st → range_order (clients st) ks →
  (∀ c, c ∈ members st → length (ch_buf (send_of st c)) < messageBufferSize) →
  ∃ st', run_once ks (Forward msg) st = Ok st' ∧
    clients st' = clients st ∧
    (∀ c, c ∈ members st →
          send_of st' c = {| ch_cap := ch_cap (send_of st c);
                             ch_buf := ch_buf (send_of st c) ++ [msg];
                             ch_closed := false |}) ∧
    (∀ c, c ∉ members st → send_of st' c = send_of st c) ∧
    tracer st' = tracer st ++ (TSent <$> ks) ∧
    length ks = size (members st).
Proof.
  intros Hreach Hord Hroom. simpl.
  destruct (fan_out_reachable msg ks st Hreach Hord) as [st' Hfan].
  assert (∀ c, c ∈ members st → has_room (send_of st c) = true) as Hr.
  { intros c Hc. apply has_room_reachable; auto. }
  exists st'. split; [done|]. split_and!.
  - apply map_eq. intros c.
    destruct (fan_out_ok _ _ _ _ (proj1 Hord) Hfan) as (_ & _ & _ & Hin & Hout & _).
    destruct (decide (c ∈ ks)) as [Hc|Hc]; [|by apply Hout].
    rewrite (Hin _ Hc), Hr; [done|]. by apply (range_order_members st ks c Hord).
  - intros c Hc. rewrite (fan_out_member_mailbox _ _ _ _ _ Hord Hfan Hc).
    apply deliver_room. auto.
  - intros c Hc. by apply (fan_out_other_mailbox _ _ _ _ _ Hord Hfan).
  - destruct (fan_out_ok _ _ _ _ (proj1 Hord) Hfan) as (_ & _ & _ & _ & _ & ->).
    f_equal. apply list_fmap_ext. intros i c Hi. unfold verdict.
    rewrite Hr; [done|]. apply (range_order_members st ks c Hord).
    by eapply list_elem_of_lookup_2.
  - by apply range_order_length.
Qed.

Lemma C4_forward_reaches_exactly_the_members_witness :
  ∃ st', run_once (keys (clients (room_after two_members))) (Forward hello)
           (room_after two_members) = Ok st' ∧
    clients st' = clients (room_after two_members) ∧
    (∀ c, c ∈ members (room_after two_members) →
          send_of st' c =
          {| ch_cap := ch_cap (send_of (room_after two_members) c);
             ch_buf := ch_buf (send_of (room_after two_members) c) ++ [hello];
             ch_closed := false |}) ∧
    (∀ c, c ∉ members (room_after two_members) →
          send_of st' c = send_of (room_after two_members) c) ∧
    tracer st' = tracer (room_after two_members) ++
                 (TSent <$> keys (clients (room_after two_members))) ∧
    length (keys (clients (room_after two_members))) =
    size (members (room_after two_members)).
Proof.
  apply (C4_forward_reaches_exactly_the_members (room_after two_members)
           (keys (clients (room_after two_members))) hello).
  - apply reachable_two_members.
  - apply keys_range_order.
  - intros c _. unfold send_of.
    replace (mailboxes (room_after two_members)) with (∅ : gmap client chan)
      by reflexivity.
    rewrite lookup_empty. simpl. unfold messageBufferSize. lia.
Defined.

(** C5. After any sequence of Join, Leave and Forward events (and of
    reads of the mailboxes by the write pumps) processed from the new
    room, the members are the sessions with a join in the trace that is
    followed neither by their leaving nor by their being cleaned up after
    a failed send; the join and leave lines of the trace are those of the
    Join and Leave events of the sequence, in their order. *)
Theorem C5_members_are_joined_not_left acts st :
  Run newRoom acts st →
  (∀ c, c ∈ members st ↔ JoinedNotLeft (tracer st) c) ∧
  filter (λ e, membership_line e = true) (tracer st) = acts ≫= announced.
Proof.
  intros Hrun. split.
  - apply (Run_preserves log_agrees) with (st := newRoom) (acts := acts);
      [|done|apply log_agrees_new].
    intros; by eapply log_agrees_step.
  - by rewrite (membership_lines_run _ _ _ Hrun).
Qed.

Lemma C5_members_are_joined_not_left_witness :
  (∀ c, c ∈ members (room_after (slow_reader ++ [Hub (Forward bye)])) ↔
        JoinedNotLeft (tracer (room_after (slow_reader ++ [Hub (Forward bye)]))) c) ∧
  filter (λ e, membership_line e = true)
    (tracer (room_after (slow_reader ++ [Hub (Forward bye)]))) =
  (slow_reader ++ [Hub (Forward bye)]) ≫= announced.
Proof.
  apply (C5_members_are_joined_not_left (slow_reader ++ [Hub (Forward bye)])
           (room_after (slow_reader ++ [Hub (Forward bye)]))).
  apply exec_Run. by_running.
Defined.

(** C6, as first stated, fails: client 1 is a member whose mailbox is
    full; the message [bye] that it submits is not delivered to it, and
    client 1 is removed from the room instead. *)
Lemma C6_full_sender_gets_nothing :
  reachable (room_after slow_reader) ∧
  1%positive ∈ members (room_after slow_reader) ∧
  run_once (keys (clients (room_after slow_reader))) (client_read 1 bye)
    (room_after slow_reader) =
  Ok (room_after (slow_reader ++ [Hub (Forward bye)])) ∧
  (bye ∉ ch_buf (send_of (room_after (slow_reader ++ [Hub (Forward bye)])) 1)) ∧
  (1%positive ∉ members (room_after (slow_reader ++ [Hub (Forward bye)]))).
Proof.
  split_and!.
  - apply reachable_slow_reader.
  - is_member.
  - by_running.
  - replace (ch_buf (send_of (room_after (slow_reader ++ [Hub (Forward bye)])) 1))
      with (replicate 256 hello) by (vm_compute; reflexivity).
    intros [Heq _]%elem_of_replicate. discriminate Heq.
  - is_not_member.
Qed.

(** C6, amended. In a state of the program, the Forward of a message
    submitted by [sender] does not panic and visits every session that is
    in the Membership Set, [sender] included if it is a member: each gets
    a trace line, and each whose mailbox has free capacity, [sender] like
    any other, stays a member and has the message appended to its
    mailbox. *)
Theorem C6_fan_out_includes_the_sender st ks sender msg :
  reachable st → range_order (clients st) ks →
  ∃ st' out,
    run_once ks (client_read sender msg) st = Ok st' ∧
    tracer st' = tracer st ++ out ∧
    (∀ c, c ∈ members st →
          (TSent c ∈ out ∨ TFailed c ∈ out) ∧
          (length (ch_buf (send_of st c)) < messageBufferSize →
           TSent c ∈ out ∧ c ∈ members st' ∧
           ch_buf (send_of st' c) = ch_buf (send_of st c) ++ [msg])) ∧
    (sender ∈ members st →
     length (ch_buf (send_of st sender)) < messageBufferSize →
     sender ∈ members st' ∧
     ch_buf (send_of st' sender) = ch_buf (send_of st sender) ++ [msg]).
Proof.
  intros Hreach Hord. unfold client_read. simpl.
  destruct (fan_out_reachable msg ks st Hreach Hord) as [st' Hfan].
  pose proof (fan_out_members _ _ _ _ Hord Hfan) as Hmem.
  destruct (fan_out_ok _ _ _ _ (proj1 Hord) Hfan) as (_ & _ & _ & _ & _ & Htr).
  assert (∀ c, c ∈ members st →
               length (ch_buf (send_of st c)) < messageBufferSize →
               TSent c ∈ verdict st <$> ks ∧ c ∈ members st' ∧
               ch_buf (send_of st' c) = ch_buf (send_of st c) ++ [msg]) as Hgets.
  { intros c Hc Hlt.
    assert (has_room (send_of st c) = true) as Hr
      by (by apply has_room_reachable).
    split_and!.
    - apply verdict_sent. split; [|done].
      by apply (range_order_members st ks c Hord).
    - by apply Hmem.
    - rewrite (fan_out_member_mailbox _ _ _ _ _ Hord Hfan Hc).
      by rewrite deliver_room. }
  exists st', (verdict st <$> ks). split_and!; try done.
  - intros c Hc. split; [|by apply Hgets].
    pose proof (proj2 (range_order_members st ks c Hord) Hc) as Hks.
    destruct (has_room (send_of st c)) eqn:Hr.
    + left. by apply verdict_sent.
    + right. by apply verdict_failed.
  - intros Hs Hlt. by destruct (Hgets _ Hs Hlt) as (_ & ? & ?).
Qed.

Lemma C6_fan_out_includes_the_sender_witness :
  ∃ st' out,
    run_once (keys (clients (room_after two_members))) (client_read 1 hello)
      (room_after two_members) = Ok st' ∧
    tracer st' = tracer (room_after two_members) ++ out ∧
    (∀ c, c ∈ members (room_after two_members) →
          (TSent c ∈ out ∨ TFailed c ∈ out) ∧
          (length (ch_buf (send_of (room_after two_members) c)) < messageBufferSize →
           TSent c ∈ out ∧ c ∈ members st' ∧
           ch_buf (send_of st' c) =
           ch_buf (send_of (room_after two_members) c) ++ [hello])) ∧
    (1%positive ∈ members (room_after two_members) →
     length (ch_buf (send_of (room_after two_members) 1)) < messageBufferSize →
     1%positive ∈ members st' ∧
     ch_buf (send_of st' 1) =
     ch_buf (send_of (room_after two_members) 1) ++ [hello]).
Proof.
  apply (C6_fan_out_includes_the_sender (room_after two_members)
           (keys (clients (room_after two_members))) 1 hello).
  - apply reachable_two_members.
  - apply keys_range_order.
Defined.

(** C7. Once a step of the loop has taken [s] out of the Membership Set,
    by a Leave or by a failed send, no Forward that the loop processes
    afterwards, however many events later, puts a message in the mailbox
    of [s]: the removing step itself adds nothing to the mailbox, every
    later Forward leaves the mailbox as it finds it, and traces no send to
    [s]. *)
Theorem C7_no_delivery_after_removal st1 a st2 acts stA msg stB s :
  s ∈ members st1 → Step st1 a st2 → s ∉ members st2 →
  Run st2 acts stA → Step stA (Hub (Forward msg)) stB →
  ch_buf (send_of st2 s) = ch_buf (send_of st1 s) ∧
  send_of stB s = send_of stA s ∧
  (∃ out, tracer stB = tracer stA ++ out ∧ (TSent s ∉ out)).
Proof.
  intros Hin Hstep Hout Hrun Hfwd.
  destruct (removed_step _ _ _ _ Hin Hstep Hout) as [Hcl Hbuf].
  destruct (closed_run _ _ _ _ Hrun Hcl) as (HclA & _).
  destruct (closed_forward _ _ _ _ HclA Hfwd) as [Hsame Htr].
  by split_and!.
Qed.

Lemma C7_no_delivery_after_removal_witness :
  ch_buf (send_of (room_after one_left) 1) =
  ch_buf (send_of (room_after two_members) 1) ∧
  send_of (room_after (one_left_then_hello ++ [Hub (Forward bye)])) 1 =
  send_of (room_after one_left_then_hello) 1 ∧
  (∃ out, tracer (room_after (one_left_then_hello ++ [Hub (Forward bye)])) =
          tracer (room_after one_left_then_hello) ++ out ∧ (TSent 1 ∉ out)).
Proof.
  apply (C7_no_delivery_after_removal (room_after two_members) (Hub (Leave 1))
           (room_after one_left) [Hub (Forward hello)]
           (room_after one_left_then_hello) bye
           (room_after (one_left_then_hello ++ [Hub (Forward bye)])) 1).
  - is_member.
  - apply Step_keys. by_running.
  - is_not_member.
  - apply exec_Run. by_running.
  - apply Step_keys. by_running.
Defined.

(** C8. Join is idempotent on the Membership Set: a Join for a session
    that is already a member does not panic, leaves the set of members,
    the orders in which a fan-out may visit them (each member once) and
    every mailbox as they were, and only adds one more line
    [New client joined] to the trace. *)
Theorem C8_join_idempotent st ks c :
  c ∈ members st →
  ∃ st', run_once ks (Join c) st = Ok st' ∧
    members st' = members st ∧
    (∀ order, range_order (clients st') order ↔ range_order (clients st) order) ∧
    mailboxes st' = mailboxes st ∧
    tracer st' = tracer st ++ [TJoined c] ∧
    trace_text (TJoined c) = "New client joined"%string.
Proof.
  intros Hin. eexists. split; [reflexivity|]. simpl.
  assert (members {| clients := <[c:=true]> (clients st);
                     mailboxes := mailboxes st;
                     tracer := tracer st ++ [TJoined c] |} = members st) as Hm.
  { unfold members in *; simpl. rewrite dom_insert_L.
    apply set_eq. intros c'. rewrite elem_of_union, elem_of_singleton.
    split; [intros [->|]; done|by right]. }
  split_and!; try done.
  intros order. unfold range_order.
  assert (∀ c', is_Some (<[c:=true]> (clients st) !! c') ↔ is_Some (clients st !! c')) as Hs.
  { intros c'. rewrite <- !elem_of_dom. fold (members st). by rewrite <- Hm. }
  split; intros [Hnd Hk]; (split; [done|]); intros c'; by rewrite Hk, Hs.
Qed.

Lemma C8_join_idempotent_witness :
  ∃ st', run_once [] (Join 1) (room_after [Hub (Join 1)]) = Ok st' ∧
    members st' = members (room_after [Hub (Join 1)]) ∧
    (∀ order, range_order (clients st') order ↔
              range_order (clients (room_after [Hub (Join 1)])) order) ∧
    mailboxes st' = mailboxes (room_after [Hub (Join 1)]) ∧
    tracer st' = tracer (room_after [Hub (Join 1)]) ++ [TJoined 1] ∧
    trace_text (TJoined 1) = "New client joined"%string.
Proof.
  apply (C8_join_idempotent (room_after [Hub (Join 1)]) [] 1).
  is_member.
Defined.

(** C9. In every state of the program every mailbox has capacity 256 and
    holds at most 256 messages; the send of the fan-out on an open mailbox
    is taken exactly when fewer than 256 messages are pending and falls to
    the default case exactly when 256 are; and the visit of a member
    evicts it exactly when 256 messages are pending in its mailbox. *)
Theorem C9_mailbox_capacity st c msg :
  reachable st →
  messageBufferSize = 256 ∧
  ch_cap (send_of st c) = 256 ∧
  length (ch_buf (send_of st c)) ≤ 256 ∧
  (ch_closed (send_of st c) = false →
     ((∃ ch', try_send msg (send_of st c) = Enqueued ch') ↔
      length (ch_buf (send_of st c)) < 256) ∧
     (try_send msg (send_of st c) = WouldBlock ↔
      length (ch_buf (send_of st c)) = 256)) ∧
  (c ∈ members st →
     ((∃ st', send_or_evict msg c st = Ok st' ∧ c ∉ members st') ↔
      length (ch_buf (send_of st c)) = 256)).
Proof.
  intros Hreach. destruct (bounded_reachable _ Hreach c) as [Hcap Hlen].
  change messageBufferSize with 256 in *.
  assert (has_room (send_of st c) = true ↔ length (ch_buf (send_of st c)) < 256)
    as Hroom by (by rewrite has_room_lt, Hcap).
  assert (has_room (send_of st c) = false ↔ length (ch_buf (send_of st c)) = 256)
    as Hfull by (rewrite has_room_ge, Hcap; lia).
  split_and!; try done.
  - intros Hopen. unfold try_send. rewrite Hopen. rewrite <- Hroom, <- Hfull.
    destruct (has_room (send_of st c)); split; split;
      try done; try (by intros [? ?]); by eexists.
  - intros Hin. rewrite <- Hfull.
    pose proof (members_open_reachable _ Hreach c Hin) as Hopen.
    rewrite (send_or_evict_open _ _ _ Hopen).
    unfold members in *. apply elem_of_dom in Hin. split.
    + intros (st' & [= <-] & Hout). rewrite elem_of_dom, clients_visit_eq in Hout.
      by destruct (has_room (send_of st c)).
    + intros Hr. eexists. split; [done|].
      rewrite elem_of_dom, clients_visit_eq, Hr. by intros [? ?].
Qed.

Lemma C9_mailbox_capacity_witness :
  messageBufferSize = 256 ∧
  ch_cap (send_of (room_after slow_reader) 1) = 256 ∧
  length (ch_buf (send_of (room_after slow_reader) 1)) ≤ 256 ∧
  (ch_closed (send_of (room_after slow_reader) 1) = false →
     ((∃ ch', try_send bye (send_of (room_after slow_reader) 1) = Enqueued ch') ↔
      length (ch_buf (send_of (room_after slow_reader) 1)) < 256) ∧
     (try_send bye (send_of (room_after slow_reader) 1) = WouldBlock ↔
      length (ch_buf (send_of (room_after slow_reader) 1)) = 256)) ∧
  (1%positive ∈ members (room_after slow_reader) →
     ((∃ st', send_or_evict bye 1 (room_after slow_reader) = Ok st' ∧
              1%positive ∉ members st') ↔
      length (ch_buf (send_of (room_after slow_reader) 1)) = 256)).
Proof.
  apply (C9_mailbox_capacity (room_after slow_reader) 1 bye).
  apply reachable_slow_reader.
Defined.

(** C10. When a Forward takes a member [s] out of the room, the message
    of that Forward is not put in the mailbox of [s]: the mailbox is
    closed with the messages it had, the trace has the failed send of [s]
    and no send to [s], no later Forward changes that mailbox, and the
    sessions that are still members all got the message. *)
Theorem C10_evicting_message_is_dropped st ks msg st' s :
  range_order (clients st) ks →
  run_once ks (Forward msg) st = Ok st' →
  s ∈ members st → s ∉ members st' →
  ch_buf (send_of st' s) = ch_buf (send_of st s) ∧
  ch_closed (send_of st' s) = true ∧
  (∃ out, tracer st' = tracer st ++ out ∧ TFailed s ∈ out ∧ (TSent s ∉ out)) ∧
  (∀ acts stA msg' stB,
     Run st' acts stA → Step stA (Hub (Forward msg')) stB →
     send_of stB s = send_of stA s) ∧
  (∀ c, c ∈ members st' →
        ch_buf (send_of st' c) = ch_buf (send_of st c) ++ [msg]).
Proof.
  intros Hord Hfan Hin Hout. simpl in Hfan.
  pose proof (fan_out_members _ _ _ _ Hord Hfan) as Hmem.
  assert (has_room (send_of st s) = false) as Hnoroom.
  { apply not_true_is_false. intros Hr. apply Hout, Hmem. by split. }
  assert (send_of st' s = {| ch_cap := ch_cap (send_of st s);
                             ch_buf := ch_buf (send_of st s);
                             ch_closed := true |}) as Hmail.
  { rewrite (fan_out_member_mailbox _ _ _ _ _ Hord Hfan Hin).
    by apply deliver_full. }
  split_and!.
  - by rewrite Hmail.
  - by rewrite Hmail.
  - destruct (fan_out_ok _ _ _ _ (proj1 Hord) Hfan) as (_ & _ & _ & _ & _ & Htr).
    exists (verdict st <$> ks). split_and!; [done| |].
    + apply verdict_failed. split; [|done].
      by apply (range_order_members st ks s Hord).
    + rewrite verdict_sent. intros [_ Hr]. congruence.
  - intros acts stA msg' stB Hrun Hstep.
    assert (ch_closed (send_of st' s) = true) as Hcl by (by rewrite Hmail).
    destruct (closed_run _ _ _ _ Hrun Hcl) as (HclA & _).
    by destruct (closed_forward _ _ _ _ HclA Hstep).
  - intros c [Hc Hr]%Hmem.
    rewrite (fan_out_member_mailbox _ _ _ _ _ Hord Hfan Hc).
    by rewrite deliver_room.
Qed.

Lemma C10_evicting_message_is_dropped_witness :
  ch_buf (send_of (room_after (slow_reader ++ [Hub (Forward bye)])) 1) =
  ch_buf (send_of (room_after slow_reader) 1) ∧
  ch_closed (send_of (room_after (slow_reader ++ [Hub (Forward bye)])) 1) = true ∧
  (∃ out, tracer (room_after (slow_reader ++ [Hub (Forward bye)])) =
          tracer (room_after slow_reader) ++ out ∧
          TFailed 1 ∈ out ∧ (TSent 1 ∉ out)) ∧
  (∀ acts stA msg' stB,
     Run (room_after (slow_reader ++ [Hub (Forward bye)])) acts stA →
     Step stA (Hub (Forward msg')) stB →
     send_of stB 1 = send_of stA 1) ∧
  (∀ c, c ∈ members (room_after (slow_reader ++ [Hub (Forward bye)])) →
        ch_buf (send_of (room_after (slow_reader ++ [Hub (Forward bye)])) c) =
        ch_buf (send_of (room_after slow_reader) c) ++ [bye]).
Proof.
  apply (C10_evicting_message_is_dropped (room_after slow_reader)
           (keys (clients (room_after slow_reader))) bye
           (room_after (slow_reader ++ [Hub (Forward bye)])) 1).
  - apply keys_range_order.
  - by_running.
  - is_member.
  - is_not_member.
Defined.

(** * Further properties of the room *)

(** ** The order of the fan-out does not matter *)

Lemma fan_out_mailboxes msg ks :
  NoDup ks → ∀ st st', fan_out msg ks st = Ok st' →
  ∀ c, mailboxes st' !! c =
       if decide (c ∈ ks) then Some (deliver msg (send_of st c))
       else mailboxes st !! c.
Proof.
  induction 1 as [|c ks Hc Hnd IH]; intros st st'; simpl.
  { by intros [= <-] c. }
  destruct (ch_closed (send_of st c)) eqn:Hopen.
  { by rewrite (send_or_evict_closed _ _ _ Hopen). }
  rewrite (send_or_evict_open _ _ _ Hopen). intros Hfan c'.
  rewrite (IH _ _ Hfan c').
  destruct (decide (c' ∈ ks)) as [Hin|Hin].
  - rewrite decide_True by (by right).
    rewrite send_of_visit_ne; [done|]. by intros ->.
  - destruct (decide (c' = c)) as [->|Hne].
    + rewrite decide_True by left. unfold visit; simpl.
      by rewrite lookup_insert_eq.
    + rewrite decide_False by (rewrite elem_of_cons; tauto).
      unfold visit; simpl. by rewrite lookup_insert_ne.
Qed.

Lemma fan_out_panic msg ks :
  ∀ st why, fan_out msg ks st = Panic why →
  why = "send on closed channel"%string.
Proof.
  induction ks as [|c ks IH]; intros st why; simpl; [done|].
  destruct (ch_closed (send_of st c)) eqn:Hopen.
  - rewrite (send_or_evict_closed _ _ _ Hopen). by intros [= <-].
  - rewrite (send_or_evict_open _ _ _ Hopen). apply IH.
Qed.

Lemma range_order_Permutation m ks1 ks2 :
  range_order m ks1 → range_order m ks2 → ks1 ≡ₚ ks2.
Proof.
  intros [Hnd1 H1] [Hnd2 H2]. apply NoDup_Permutation; [done..|].
  intros c. by rewrite H1, H2.
Qed.

Lemma range_order_perm m ks1 ks2 :
  range_order m ks1 → ks1 ≡ₚ ks2 → range_order m ks2.
Proof.
  intros [Hnd H] Hperm. split; [by rewrite <- Hperm|].
  intros c. by rewrite <- Hperm.
Qed.

(** X1. Go leaves the order of [range r.clients] open, and the room does
    not depend on it: two fan-outs of the same message from the same
    state, in any two orders, either both panic (with the same message)
    or end with the same [r.clients] and the same mailboxes; only the
    order of the trace lines may differ. *)
Theorem fan_out_order_irrelevant msg ks1 ks2 st :
  range_order (clients st) ks1 → range_order (clients st) ks2 →
  match run_once ks1 (Forward msg) st, run_once ks2 (Forward msg) st with
  | Ok st1, Ok st2 =>
      clients st1 = clients st2 ∧ mailboxes st1 = mailboxes st2 ∧
      tracer st1 ≡ₚ tracer st2
  | Panic why1, Panic why2 => why1 = why2
  | _, _ => False
  end.
Proof.
  intros Hord1 Hord2. simpl.
  pose proof (range_order_Permutation _ _ _ Hord1 Hord2) as Hperm.
  pose proof (fan_out_spec msg ks1 (proj1 Hord1) st) as H1.
  pose proof (fan_out_spec msg ks2 (proj1 Hord2) st) as H2.
  destruct (fan_out msg ks1 st) as [st1|why1] eqn:Hfan1,
           (fan_out msg ks2 st) as [st2|why2] eqn:Hfan2.
  - destruct H1 as (_ & _ & _ & Hin1 & Hout1 & Htr1).
    destruct H2 as (_ & _ & _ & Hin2 & Hout2 & Htr2).
    split_and!.
    + apply map_eq. intros c. destruct (decide (c ∈ ks1)) as [Hc|Hc].
      * rewrite Hin1, Hin2; [done| |done]. by rewrite <- Hperm.
      * rewrite Hout1, Hout2; [done| |done]. by rewrite <- Hperm.
    + apply map_eq. intros c.
      rewrite (fan_out_mailboxes _ _ (proj1 Hord1) _ _ Hfan1 c).
      rewrite (fan_out_mailboxes _ _ (proj1 Hord2) _ _ Hfan2 c).
      destruct (decide (c ∈ ks1)) as [Hc|Hc].
      * rewrite decide_True; [done|]. by rewrite <- Hperm.
      * rewrite decide_False; [done|]. by rewrite <- Hperm.
    + rewrite Htr1, Htr2. by rewrite Hperm.
  - destruct H1 as (Hopen & _). destruct H2 as (c & Hc & Hcl).
    rewrite <- Hperm in Hc. rewrite (Hopen _ Hc) in Hcl. done.
  - destruct H2 as (Hopen & _). destruct H1 as (c & Hc & Hcl).
    rewrite Hperm in Hc. rewrite (Hopen _ Hc) in Hcl. done.
  - apply fan_out_panic in Hfan1, Hfan2. congruence.
Qed.

Lemma fan_out_order_irrelevant_witness :
  match run_once (keys (clients (room_after slow_reader))) (Forward bye)
          (room_after slow_reader),
        run_once (reverse (keys (clients (room_after slow_reader)))) (Forward bye)
          (room_after slow_reader) with
  | Ok st1, Ok st2 =>
      clients st1 = clients st2 ∧ mailboxes st1 = mailboxes st2 ∧
      tracer st1 ≡ₚ tracer st2
  | Panic why1, Panic why2 => why1 = why2
  | _, _ => False
  end.
Proof.
  apply (fan_out_order_irrelevant bye
           (keys (clients (room_after slow_reader)))
           (reverse (keys (clients (room_after slow_reader))))
           (room_after slow_reader)).
  - apply keys_range_order.
  - apply (range_order_perm _ (keys (clients (room_after slow_reader))));
      [apply keys_range_order|]. symmetry. apply reverse_Permutation.
Defined.

(** ** A mailbox is closed once, by a cleanup *)

Lemma removals_snoc_other c log e :
  ¬ removal_of c e →
  filter (removal_of c) (log ++ [e]) = filter (removal_of c) log.
Proof.
  intros He. by rewrite filter_app, filter_cons_False, filter_nil, app_nil_r.
Qed.

Lemma closed_once_new : closed_once newRoom.
Proof. intros c. unfold send_of; simpl. by rewrite lookup_empty. Qed.

Lemma closed_once_remove e c st :
  e = TLeft c ∨ e = TFailed c →
  ch_closed (send_of st c) = false →
  closed_once st →
  ∀ cl, closed_once
          {| clients := cl;
             mailboxes := <[c := {| ch_cap := ch_cap (send_of st c);
                                    ch_buf := ch_buf (send_of st c);
                                    ch_closed := true |}]> (mailboxes st);
             tracer := tracer st ++ [e] |}.
Proof.
  intros He Hopen Hinv cl c'. simpl.
  rewrite (send_of_insert _ _ _ _ _ _ st eq_refl).
  destruct (decide (c = c')) as [<-|Hne]; simpl.
  - rewrite filter_app, length_app, (Hinv c), Hopen.
    rewrite filter_cons_True by done. done.
  - rewrite removals_snoc_other; [apply Hinv|].
    unfold removal_of. destruct He as [-> | ->]; intros [[=]|[=]]; done.
Qed.

Lemma closed_once_visit msg c st :
  ch_closed (send_of st c) = false → closed_once st →
  closed_once (visit msg c st).
Proof.
  intros Hopen Hinv. unfold visit, verdict, deliver.
  destruct (has_room (send_of st c)).
  - intros c'. simpl. rewrite (send_of_insert _ _ _ _ _ _ st eq_refl).
    rewrite removals_snoc_other by (intros [[=]|[=]]).
    rewrite (Hinv c'). destruct (decide (c = c')) as [<-|]; [|done].
    by rewrite Hopen.
  - apply closed_once_remove; auto.
Qed.

Lemma closed_once_step st a st' :
  closed_once st → Step st a st' → closed_once st'.
Proof.
  intros Hinv Hstep. apply Step_inv in Hstep.
  destruct a as [[c|c|msg]|c].
  - subst st'. intros c'. simpl.
    rewrite (send_of_same_mailboxes st) by done.
    rewrite removals_snoc_other by (intros [[=]|[=]]). apply Hinv.
  - apply cleanup_inv in Hstep as [Hopen ->]. apply closed_once_remove; auto.
  - destruct Hstep as (ks & _ & Hfan).
    eapply (fan_out_preserves closed_once); [|done..].
    intros; by apply closed_once_visit.
  - subst st'. intros c'. rewrite tracer_client_write, send_of_client_write.
    rewrite (Hinv c'). by destruct (decide (c = c')) as [<-|].
Qed.

Lemma closed_once_run acts st : Run newRoom acts st → closed_once st.
Proof.
  intros Hrun.
  apply (Run_preserves closed_once) with (st := newRoom) (acts := acts);
    [|done|apply closed_once_new].
  intros; by eapply closed_once_step.
Qed.

Lemma closed_once_logged st c :
  closed_once st →
  ch_closed (send_of st c) = true ↔
  TLeft c ∈ tracer st ∨ TFailed c ∈ tracer st.
Proof.
  intros Hinv. specialize (Hinv c). split.
  - intros Hcl. rewrite Hcl in Hinv.
    destruct (filter (removal_of c) (tracer st)) as [|e l] eqn:Hf; [done|].
    assert (e ∈ filter (removal_of c) (tracer st)) as He by (rewrite Hf; left).
    apply list_elem_of_filter in He as [[-> | ->] Hin]; auto.
  - intros Hin. destruct (ch_closed (send_of st c)); [done|].
    apply length_zero_iff_nil in Hinv.
    assert (∀ e, removal_of c e → e ∈ tracer st → False) as Hno.
    { intros e He Hine.
      assert (e ∈ filter (removal_of c) (tracer st)) as Hf
        by (by apply list_elem_of_filter).
      rewrite Hinv in Hf. by apply elem_of_nil in Hf. }
    destruct Hin as [Hin|Hin]; exfalso; eapply Hno; try apply Hin.
    + by left.
    + by right.
Qed.

(** X2. From the new room on, whatever the loop and the write pumps do
    without a panic, the trace holds exactly one cleanup line ([Client
    left] or the failed send) about a session whose mailbox is closed and
    none about a session whose mailbox is open: a mailbox is closed at
    most once, and only by the cleanup that reports it. *)
Theorem mailbox_closed_once acts st c :
  Run newRoom acts st →
  length (filter (removal_of c) (tracer st)) =
  (if ch_closed (send_of st c) then 1 else 0) ∧
  (ch_closed (send_of st c) = true ↔
   TLeft c ∈ tracer st ∨ TFailed c ∈ tracer st).
Proof.
  intros Hrun. pose proof (closed_once_run _ _ Hrun) as Hinv.
  split; [apply Hinv|by apply closed_once_logged].
Qed.

Lemma mailbox_closed_once_witness :
  length (filter (removal_of 1)
            (tracer (room_after (slow_reader ++ [Hub (Forward bye)])))) =
  (if ch_closed (send_of (room_after (slow_reader ++ [Hub (Forward bye)])) 1)
   then 1 else 0) ∧
  (ch_closed (send_of (room_after (slow_reader ++ [Hub (Forward bye)])) 1) = true ↔
   TLeft 1 ∈ tracer (room_after (slow_reader ++ [Hub (Forward bye)])) ∨
   TFailed 1 ∈ tracer (room_after (slow_reader ++ [Hub (Forward bye)]))).
Proof.
  apply (mailbox_closed_once (slow_reader ++ [Hub (Forward bye)])
           (room_after (slow_reader ++ [Hub (Forward bye)])) 1).
  apply exec_Run. by_running.
Defined.

(** ** When the loop panics *)

Lemma Run_snoc st acts st1 a st2 :
  Run st acts st1 → Step st1 a st2 → Run st (acts ++ [a]) st2.
Proof.
  induction 1 as [st|st a0 st0 acts st1 Hstep _ IH]; intros Hlast; simpl.
  - econstructor; [done|constructor].
  - econstructor; [done|by apply IH].
Qed.

Lemma reachable_Run st : reachable st → ∃ acts, Run newRoom acts st.
Proof.
  induction 1 as [|st a st' _ [acts IH] _ Hstep].
  - exists []. constructor.
  - exists (acts ++ [a]). by eapply Run_snoc.
Qed.

(** X3. In a state of the program the loop panics on one kind of event
    only: a Leave of a session that a Leave or a failed send has already
    cleaned up. A Join, a Forward, and the Leave of any other session are
    processed. *)
Theorem run_panics_on_second_cleanup_only st ks ev why :
  reachable st → range_order (clients st) ks →
  run_once ks ev st = Panic why ↔
  ∃ c, ev = Leave c ∧
       (TLeft c ∈ tracer st ∨ TFailed c ∈ tracer st) ∧
       why = "close of closed channel"%string.
Proof.
  intros Hreach Hord.
  destruct (reachable_Run _ Hreach) as [acts Hrun].
  assert (∀ c, ch_closed (send_of st c) = true ↔
               TLeft c ∈ tracer st ∨ TFailed c ∈ tracer st) as Hlogged.
  { intros c. apply closed_once_logged. by eapply closed_once_run. }
  split.
  - destruct ev as [c|c|msg]; simpl.
    + done.
    + unfold handle_leave. intros Hpanic. exists c.
      destruct (ch_closed (send_of st c)) eqn:Hcl.
      * rewrite (cleanup_closed _ _ _ Hcl) in Hpanic.
        injection Hpanic as <-. split_and!; [done| |done]. by apply Hlogged.
      * unfold cleanup in Hpanic. by rewrite (close_chan_open _ Hcl) in Hpanic.
    + destruct (fan_out_reachable msg ks st Hreach Hord) as [st' ->]. done.
  - intros (c & -> & Hin & ->). simpl. unfold handle_leave.
    apply cleanup_closed. by apply Hlogged.
Qed.

Lemma reachable_slow_reader_evicted : reachable (room_after slow_reader_evicted).
Proof.
  apply (exec_reachable slow_reader_evicted newRoom); [constructor| |by_running].
  apply joins_freshb_true. by_running.
Qed.

Lemma run_panics_on_second_cleanup_only_witness :
  run_once (keys (clients (room_after slow_reader_evicted))) (Leave 1)
    (room_after slow_reader_evicted) =
  Panic "close of closed channel"%string ↔
  ∃ c, Leave 1 = Leave c ∧
       (TLeft c ∈ tracer (room_after slow_reader_evicted) ∨
        TFailed c ∈ tracer (room_after slow_reader_evicted)) ∧
       "close of closed channel"%string = "close of closed channel"%string.
Proof.
  apply (run_panics_on_second_cleanup_only (room_after slow_reader_evicted)
           (keys (clients (room_after slow_reader_evicted))) (Leave 1)
           "close of closed channel"%string).
  - apply reachable_slow_reader_evicted.
  - apply keys_range_order.
Defined.

(** ** What is forwarded is written or pending, in order *)

Lemma forwarded_cons a acts :
  forwarded (a :: acts) = forwarded [a] ++ forwarded acts.
Proof. unfold forwarded. simpl. by rewrite app_nil_r. Qed.

Lemma handed_step c st a st1 :
  Step st a st1 → c ∈ members st1 → a ≠ Hub (Join c) →
  c ∈ members st ∧
  handed c a st ++ ch_buf (send_of st1 c) =
  ch_buf (send_of st c) ++ forwarded [a].
Proof.
  intros Hstep Hin Hnj. apply Step_inv in Hstep.
  destruct a as [[c'|c'|msg]|c']; simpl.
  - subst st1. unfold members in *; simpl in *.
    rewrite dom_insert_L, elem_of_union, elem_of_singleton in Hin.
    destruct Hin as [->|Hin]; [done|]. split; [done|].
    rewrite (send_of_same_mailboxes st) by done. by rewrite app_nil_r.
  - apply cleanup_inv in Hstep as [_ ->]. unfold members in *; simpl in *.
    rewrite dom_delete_L, elem_of_difference, elem_of_singleton in Hin.
    destruct Hin as [Hin Hne]. split; [done|].
    rewrite (send_of_insert _ _ _ _ _ _ st eq_refl).
    rewrite decide_False by done. by rewrite app_nil_r.
  - destruct Hstep as (ks & Hord & Hfan).
    apply (fan_out_members _ _ _ _ Hord Hfan) in Hin as [Hin Hroom].
    split; [done|].
    rewrite (fan_out_member_mailbox _ _ _ _ _ Hord Hfan Hin).
    by rewrite deliver_room.
  - subst st1. unfold members in *. rewrite clients_client_write in Hin.
    split; [done|]. rewrite send_of_client_write, app_nil_r.
    destruct (decide (c' = c)) as [->|Hne]; [|done]. simpl.
    unfold recv_chan. by destruct (ch_buf (send_of st c)).
Qed.

Lemma Pump_conserves c st acts st' out :
  Pump c st acts st' out →
  c ∈ members st' → (∀ a, a ∈ acts → a ≠ Hub (Join c)) →
  c ∈ members st ∧
  out ++ ch_buf (send_of st' c) = ch_buf (send_of st c) ++ forwarded acts.
Proof.
  induction 1 as [st|st a st1 acts st2 out Hstep _ IH]; intros Hin Hnj.
  - split; [done|]. unfold forwarded. simpl. by rewrite app_nil_r.
  - destruct IH as [Hin1 Heq]; [done|intros a' Ha'; apply Hnj; by right|].
    destruct (handed_step c _ _ _ Hstep Hin1) as [Hin0 Hhead];
      [apply Hnj; left|].
    split; [done|].
    rewrite forwarded_cons, <- app_assoc, Heq, !app_assoc. by rewrite Hhead.
Qed.

(** X4. For a session that is a member at the end of a run in which it
    was not joined again, nothing forwarded is lost, doubled or
    reordered: it was a member from the start, and what its write pump
    has received followed by what is pending in its mailbox is what was
    pending at the start followed by every forwarded message, in the
    order of the Forward events. *)
Theorem mailbox_fifo c st acts st' out :
  Pump c st acts st' out →
  c ∈ members st' → (∀ a, a ∈ acts → a ≠ Hub (Join c)) →
  c ∈ members st ∧
  out ++ ch_buf (send_of st' c) = ch_buf (send_of st c) ++ forwarded acts.
Proof. apply Pump_conserves. Qed.

Lemma pumped_Pump c acts :
  ∀ st st', exec acts st = Ok st' → Pump c st acts st' (pumped c acts st).
Proof.
  induction acts as [|a acts IH]; intros st st'; simpl.
  - intros [= <-]. constructor.
  - destruct (step (keys (clients st)) a st) as [st1|why] eqn:Hstep; [|done].
    intros Hexec. apply Pump_cons with st1; [by apply Step_keys|by apply IH].
Qed.

Lemma mailbox_fifo_witness :
  1%positive ∈ members (room_after two_members) ∧
  pumped 1 chatting (room_after two_members) ++
  ch_buf (send_of (room_after (two_members ++ chatting)) 1) =
  ch_buf (send_of (room_after two_members) 1) ++ forwarded chatting.
Proof.
  apply (mailbox_fifo 1 (room_after two_members) chatting
           (room_after (two_members ++ chatting))
           (pumped 1 chatting (room_after two_members))).
  - apply pumped_Pump. by_running.
  - is_member.
  - intros a Ha. unfold chatting in Ha.
    repeat (apply elem_of_cons in Ha as [->|Ha]; [discriminate|]).
    by apply elem_of_nil in Ha.
Defined.

(** ** A session whose write pump is stalled *)

Lemma Run_Pump_stalled c st acts st' :
  Run st acts st' → (∀ a, a ∈ acts → a ≠ Drain c) → Pump c st acts st' [].
Proof.
  induction 1 as [st|st a st1 acts st2 Hstep _ IH]; intros Hnd.
  - constructor.
  - assert (handed c a st = []) as Hh.
    { destruct a as [ev|c']; [done|]. simpl.
      rewrite decide_False; [done|]. intros ->. apply (Hnd (Drain c)); [left|done]. }
    rewrite <- (app_nil_l []), <- Hh at 1.
    apply Pump_cons with st1; [done|]. apply IH. intros a' Ha'. apply Hnd. by right.
Qed.

Lemma member_or_closed c st acts st' :
  Run st acts st' →
  c ∈ members st ∨ ch_closed (send_of st c) = true →
  c ∈ members st' ∨ ch_closed (send_of st' c) = true.
Proof.
  induction 1 as [st|st a st1 acts st2 Hstep _ IH]; [done|].
  intros [Hin|Hcl]; apply IH.
  - destruct (decide (c ∈ members st1)) as [|Hout]; [by left|].
    right. by destruct (removed_step _ _ _ _ Hin Hstep Hout).
  - right. by destruct (closed_step _ _ _ _ Hcl Hstep).
Qed.

(** X5. The backpressure policy takes effect: when a member's write pump
    takes nothing from its mailbox while the room forwards more messages
    than the mailbox has room left for, the member is out of the room by
    the end, its mailbox is closed, and the Leave that [ServeHTTP] has
    deferred for it panics the loop. *)
Theorem stalled_member_is_evicted st c acts st' ks :
  reachable st → c ∈ members st → Run st acts st' →
  (∀ a, a ∈ acts → a ≠ Drain c ∧ a ≠ Hub (Join c)) →
  messageBufferSize < length (ch_buf (send_of st c)) + length (forwarded acts) →
  (c ∉ members st') ∧
  ch_closed (send_of st' c) = true ∧
  run_once ks (Leave c) st' = Panic "close of closed channel"%string.
Proof.
  intros Hreach Hin Hrun Hacts Hmany.
  assert (c ∉ members st') as Hout.
  { intros Hin'.
    assert (Pump c st acts st' []) as Hpump.
    { apply Run_Pump_stalled; [done|]. intros a Ha. by apply Hacts. }
    destruct (Pump_conserves c _ _ _ _ Hpump Hin') as [_ Heq].
    { intros a Ha. by apply Hacts. }
    simpl in Heq.
    pose proof (bounded_reachable _ Hreach) as Hb.
    assert (bounded st') as Hb'.
    { apply (Run_preserves bounded) with (st := st) (acts := acts); [|done..].
      intros; by eapply bounded_step. }
    destruct (Hb' c) as [_ Hlen]. rewrite Heq, length_app in Hlen. lia. }
  assert (ch_closed (send_of st' c) = true) as Hcl.
  { destruct (member_or_closed c _ _ _ Hrun) as [?|?]; [by left|done..]. }
  split_and!; [done..|]. simpl. unfold handle_leave. by apply cleanup_closed.
Qed.

Lemma stalled_member_is_evicted_witness :
  (1%positive ∉ members (room_after (two_members ++ stalled))) ∧
  ch_closed (send_of (room_after (two_members ++ stalled)) 1) = true ∧
  run_once [] (Leave 1) (room_after (two_members ++ stalled)) =
  Panic "close of closed channel"%string.
Proof.
  apply (stalled_member_is_evicted (room_after two_members) 1 stalled
           (room_after (two_members ++ stalled)) []).
  - apply reachable_two_members.
  - is_member.
  - apply exec_Run. by_running.
  - intros a [-> _]%elem_of_replicate. split; discriminate.
  - vm_compute. lia.
Defined.

(** ** A Leave for a session that is not in the room *)

(** X6. The leave case does not look whether the session is a member:
    for a session that is not in [r.clients] and whose mailbox is open,
    the [delete] changes nothing but the mailbox is closed all the same
    and [Client left] is traced; should that session join afterwards, the
    next Forward panics on the send to its closed mailbox. *)
Theorem leave_of_stranger_closes_mailbox st ks c :
  c ∉ members st → ch_closed (send_of st c) = false →
  ∃ st', run_once ks (Leave c) st = Ok st' ∧
    clients st' = clients st ∧
    ch_closed (send_of st' c) = true ∧
    tracer st' = tracer st ++ [TLeft c] ∧
    ∀ ks1 st'' msg ks2,
      run_once ks1 (Join c) st' = Ok st'' →
      range_order (clients st'') ks2 →
      run_once ks2 (Forward msg) st'' = Panic "send on closed channel"%string.
Proof.
  intros Hout Hopen. simpl. unfold handle_leave, cleanup.
  rewrite (close_chan_open _ Hopen). eexists. split; [reflexivity|].
  split_and!; simpl.
  - apply delete_id. unfold members in Hout.
    by apply not_elem_of_dom in Hout.
  - by rewrite (send_of_insert _ _ _ _ _ _ st eq_refl), decide_True.
  - done.
  - intros ks1 st'' msg ks2 [= <-] Hord.
    pose proof (fan_out_spec msg ks2 (proj1 Hord)
      {| clients := <[c:=true]> (delete c (clients st));
         mailboxes := <[c:={| ch_cap := ch_cap (send_of st c);
                              ch_buf := ch_buf (send_of st c);
                              ch_closed := true |}]> (mailboxes st);
         tracer := (tracer st ++ [TLeft c]) ++ [TJoined c] |}) as Hspec.
    match goal with
    | |- fan_out msg ks2 ?s = _ => destruct (fan_out msg ks2 s) as [st3|why] eqn:Hfan
    end.
    + destruct Hspec as (Hall & _). exfalso.
      assert (c ∈ ks2) as Hc.
      { apply Hord. simpl. rewrite lookup_insert_eq. by eexists. }
      specialize (Hall c Hc).
      rewrite (send_of_insert _ _ _ _ _ _ st eq_refl), decide_True in Hall by done.
      done.
    + by rewrite (fan_out_panic _ _ _ _ Hfan).
Qed.

Lemma leave_of_stranger_closes_mailbox_witness :
  ∃ st', run_once [] (Leave 7) (room_after two_members) = Ok st' ∧
    clients st' = clients (room_after two_members) ∧
    ch_closed (send_of st' 7) = true ∧
    tracer st' = tracer (room_after two_members) ++ [TLeft 7] ∧
    ∀ ks1 st'' msg ks2,
      run_once ks1 (Join 7) st' = Ok st'' →
      range_order (clients st'') ks2 →
      run_once ks2 (Forward msg) st'' = Panic "send on closed channel"%string.
Proof.
  apply (leave_of_stranger_closes_mailbox (room_after two_members) [] 7).
  - is_not_member.
  - by_running.
Defined.

(** * Properties of the handlers *)

(** ** Splitting the path *)

Lemma strings_Split_length s sep :
  length (strings_Split s sep) = S (strings_Count s sep).
Proof.
  induction s as [|a s IH]; simpl; [done|].
  destruct (decide (a = sep)); simpl; [by rewrite IH|].
  destruct (strings_Split s sep); simpl in *; lia.
Qed.

Lemma strings_Split_free s sep :
  strings_Count s sep = 0 → strings_Split s sep = [s].
Proof.
  induction s as [|a s IH]; simpl; [done|].
  destruct (decide (a = sep)); [done|]. simpl. intros Hs. by rewrite IH.
Qed.

Lemma strings_Split_app a b sep :
  strings_Count a sep = 0 →
  strings_Split (a +:+ String sep b) sep = a :: strings_Split b sep.
Proof.
  induction a as [|x a IH]; simpl.
  - intros _. by rewrite decide_True.
  - destruct (decide (x = sep)); [done|]. simpl. intros Ha. by rewrite IH.
Qed.

Lemma action_and_provider_short path :
  strings_Count path "/" < 3 →
  action_and_provider path =
  inr (IndexOutOfRange (if strings_Count path "/" <? 2 then 2 else 3)
         (S (strings_Count path "/"))).
Proof.
  intros Hn. unfold action_and_provider.
  pose proof (strings_Split_length path "/") as Hlen.
  destruct (strings_Split path "/") as [|s0 [|s1 [|s2 [|s3 segs]]]];
    simpl in *; try lia.
  - by replace (strings_Count path "/") with 0 by lia.
  - by replace (strings_Count path "/") with 1 by lia.
  - by replace (strings_Count path "/") with 2 by lia.
Qed.

Lemma action_and_provider_long path :
  3 ≤ strings_Count path "/" →
  ∃ action name, action_and_provider path = inl (action, name).
Proof.
  intros Hn. unfold action_and_provider.
  pose proof (strings_Split_length path "/") as Hlen.
  destruct (strings_Split path "/") as [|s0 [|s1 [|s2 [|s3 segs]]]];
    simpl in *; try lia.
  by exists s2, s3.
Qed.

Lemma string_app_empty_r (s : string) : s +:+ "" = s.
Proof.
  induction s as [|x s IH]; [done|].
  change (String x (s +:+ "") = String x s). by rewrite IH.
Qed.

Lemma action_and_provider_format action name tail :
  strings_Count action "/" = 0 → strings_Count name "/" = 0 →
  ignored_tail tail →
  action_and_provider ("/auth/" +:+ action +:+ "/" +:+ name +:+ tail) =
  inl (action, name).
Proof.
  intros Ha Hn Htail. unfold action_and_provider.
  change ("/auth/" +:+ action +:+ "/" +:+ name +:+ tail)
    with ("" +:+ String "/" ("auth" +:+ String "/" (action +:+ String "/" (name +:+ tail)))).
  rewrite strings_Split_app by done.
  rewrite strings_Split_app by done.
  rewrite strings_Split_app by done.
  destruct Htail as [->|[rest ->]].
  - by rewrite string_app_empty_r, strings_Split_free.
  - by rewrite strings_Split_app.
Qed.

(** ** Cookies *)

Lemma readCookie_None name cs :
  readCookie name cs = None ↔ name ∉ cs.*1.
Proof.
  induction cs as [|[n v] cs IH]; simpl.
  - split; [intros _; apply not_elem_of_nil|done].
  - rewrite not_elem_of_cons. destruct (decide (n = name)) as [->|Hne].
    + split; [done|]. by intros [? _].
    + rewrite IH. split; [by intros ?; split|by intros [_ ?]].
Qed.

Lemma readCookie_snoc name cs v :
  is_Some (readCookie name (cs ++ [(name, v)])).
Proof.
  induction cs as [|[n v'] cs IH]; simpl.
  - rewrite decide_True by done. by eexists.
  - destruct (decide (n = name)); [by eexists|done].
Qed.

(** ** The login handler *)

(** X7. The path of a request to [loginHandler] must have three slashes:
    with fewer, as in [/auth/login], reading [segs[2]] or [segs[3]]
    panics with an index out of range before anything is written or any
    provider is asked, in both versions of the handler. *)
Theorem loginHandler_short_path (L : libraries) r w :
  strings_Count (r_path r) "/" < 3 →
  loginHandler_todo r w =
    Panicked (IndexOutOfRange (if strings_Count (r_path r) "/" <? 2 then 2 else 3)
                (S (strings_Count (r_path r) "/"))) ∧
  loginHandler L r w =
    Panicked (IndexOutOfRange (if strings_Count (r_path r) "/" <? 2 then 2 else 3)
                (S (strings_Count (r_path r) "/"))).
Proof.
  intros Hn. unfold loginHandler_todo, loginHandler.
  by rewrite (action_and_provider_short _ Hn).
Qed.

Lemma loginHandler_short_path_witness :
  loginHandler_todo (get "/auth/login" []) fresh_conn =
    Panicked (IndexOutOfRange
                (if strings_Count (r_path (get "/auth/login" [])) "/" <? 2 then 2 else 3)
                (S (strings_Count (r_path (get "/auth/login" [])) "/"))) ∧
  loginHandler toy_libraries (get "/auth/login" []) fresh_conn =
    Panicked (IndexOutOfRange
                (if strings_Count (r_path (get "/auth/login" [])) "/" <? 2 then 2 else 3)
                (S (strings_Count (r_path (get "/auth/login" [])) "/"))).
Proof.
  apply (loginHandler_short_path toy_libraries (get "/auth/login" []) fresh_conn).
  vm_compute. lia.
Defined.

(** X8. For a path [/auth/{action}/{provider}], whatever follows a
    further slash, the handler reads the action and the provider back
    out of the path: the first version logs the provider when the action
    is [login]; both versions answer an action they do not know with 404
    and a body that names it, and the first version answers so for every
    action but [login]. *)
Theorem loginHandler_dispatch (L : libraries) r w action name tail :
  r_path r = "/auth/" +:+ action +:+ "/" +:+ name +:+ tail →
  strings_Count action "/" = 0 → strings_Count name "/" = 0 →
  ignored_tail tail →
  loginHandler_todo r w =
    (if decide (action = "login")
     then Returned (log_Println ("TODO handle for " +:+ name) w)
     else Returned (action_not_supported action w)) ∧
  (action ≠ "login" → action ≠ "callback" →
   loginHandler L r w = Returned (action_not_supported action w)) ∧
  (w_status w = None →
   w_status (action_not_supported action w) = Some 404 ∧
   w_body (action_not_supported action w) =
   w_body w +:+ "Auth action " +:+ action +:+ " not supported").
Proof.
  intros Hpath Ha Hn Htail. unfold loginHandler_todo, loginHandler.
  rewrite Hpath, (action_and_provider_format _ _ _ Ha Hn Htail).
  split_and!.
  - done.
  - intros H1 H2. by rewrite !decide_False.
  - intros Hw. unfold action_not_supported, Fprintf, WriteHeader.
    rewrite Hw. simpl. done.
Qed.

Lemma loginHandler_dispatch_witness :
  loginHandler_todo (get "/auth/logout/google/now" []) fresh_conn =
    (if decide ("logout" = "login")
     then Returned (log_Println ("TODO handle for " +:+ "google") fresh_conn)
     else Returned (action_not_supported "logout" fresh_conn)) ∧
  ("logout" ≠ "login" → "logout" ≠ "callback" →
   loginHandler toy_libraries (get "/auth/logout/google/now" []) fresh_conn =
   Returned (action_not_supported "logout" fresh_conn)) ∧
  (w_status fresh_conn = None →
   w_status (action_not_supported "logout" fresh_conn) = Some 404 ∧
   w_body (action_not_supported "logout" fresh_conn) =
   w_body fresh_conn +:+ "Auth action " +:+ "logout" +:+ " not supported").
Proof.
  apply (loginHandler_dispatch toy_libraries (get "/auth/logout/google/now" [])
           fresh_conn "logout" "google" "/now").
  - reflexivity.
  - reflexivity.
  - reflexivity.
  - right. by exists "now".
Defined.

(** X9. A login or a callback for a provider that gomniauth does not
    know ends the program: [log.Fatalln] is called and nothing is
    answered. *)
Theorem loginHandler_unknown_provider (L : libraries) r w action name tail :
  r_path r = "/auth/" +:+ action +:+ "/" +:+ name +:+ tail →
  action = "login" ∨ action = "callback" →
  strings_Count name "/" = 0 → ignored_tail tail →
  gomniauth_Provider L name = None →
  loginHandler L r w = Fatal "Error when trying to get provider".
Proof.
  intros Hpath Hact Hn Htail Hnone. unfold loginHandler.
  assert (strings_Count action "/" = 0) as Ha
    by (by destruct Hact as [-> | ->]).
  rewrite Hpath, (action_and_provider_format _ _ _ Ha Hn Htail).
  destruct Hact as [-> | ->].
  - rewrite decide_True by done. by rewrite Hnone.
  - rewrite decide_False by done. rewrite decide_True by done. by rewrite Hnone.
Qed.

Lemma loginHandler_unknown_provider_witness :
  loginHandler toy_libraries (get "/auth/login/myspace" []) fresh_conn =
  Fatal "Error when trying to get provider".
Proof.
  apply (loginHandler_unknown_provider toy_libraries
           (get "/auth/login/myspace" []) fresh_conn "login" "myspace" "").
  - reflexivity.
  - by left.
  - reflexivity.
  - by left.
  - reflexivity.
Defined.

(** ** The authentication wrapper *)

(** X10. [MustAuth] lets a request through exactly when it carries a
    cookie named [auth], whatever its value: then the answer is the
    wrapped handler's; otherwise the wrapped handler is not called and the
    answer is the redirect to [/login]. It never panics by itself, and
    wrapping twice is wrapping once. *)
Theorem MustAuth_gate next r w :
  MustAuth next r w =
    (if decide ("auth" ∈ (r_cookies r).*1) then next r w
     else Returned (WriteHeader StatusTemporaryRedirect
                      (Header_Set "Location" "/login" w))) ∧
  (∀ v, MustAuth next r w = Panicked v ↔
        "auth" ∈ (r_cookies r).*1 ∧ next r w = Panicked v) ∧
  MustAuth (MustAuth next) r w = MustAuth next r w.
Proof.
  unfold MustAuth, authHandler_ServeHTTP, Request_Cookie.
  destruct (readCookie "auth" (r_cookies r)) as [v|] eqn:Hc.
  - assert ("auth" ∈ (r_cookies r).*1) as Hin.
    { destruct (decide ("auth" ∈ (r_cookies r).*1)) as [|Hn]; [done|].
      apply readCookie_None in Hn. congruence. }
    rewrite decide_True by done. split_and!; [done| |done].
    intros v'. split; [by intros ?; split|by intros [_ ?]].
  - pose proof (proj1 (readCookie_None _ _) Hc) as Hn.
    rewrite decide_False by done. split_and!; [done| |done].
    intros v'. split; [done|by intros [? _]].
Qed.

(** X11. When the callback of a provider succeeds, the answer sends the
    browser to [/chat] and sets a cookie that [MustAuth] accepts: a
    request that brings back the cookies of that answer is let through to
    the wrapped handler. *)
Theorem callback_cookie_opens_chat (L : libraries) r w w' name tail :
  r_path r = "/auth/callback/" +:+ name +:+ tail →
  strings_Count name "/" = 0 → ignored_tail tail →
  loginHandler L r w = Returned w' →
  w_header w' !! "Location" = Some ["/chat"] ∧
  (w_status w = None → w_status w' = Some 307) ∧
  (∃ u, w_set_cookies w' =
        w_set_cookies w ++
        [{| c_name := "auth"; c_value := name_MustBase64 L (user_Name L u);
            c_path := "/" |}]) ∧
  (∀ next r' w'', r_cookies r' = cookies_of w' →
                  MustAuth next r' w'' = next r' w'').
Proof.
  intros Hpath Hn Htail. unfold loginHandler.
  change ("/auth/callback/" +:+ name +:+ tail)
    with ("/auth/" +:+ "callback" +:+ "/" +:+ name +:+ tail) in Hpath.
  rewrite Hpath, (action_and_provider_format "callback" name tail eq_refl Hn Htail).
  rewrite decide_False by done. rewrite decide_True by done.
  destruct (gomniauth_Provider L name) as [p|]; [|done].
  destruct (MustFromURLQuery L (r_query r)) as [q|]; [|done].
  destruct (CompleteAuth L p q) as [cr|]; [|done].
  destruct (GetUser L p cr) as [u|]; [|done].
  intros [= <-]. split_and!.
  - unfold WriteHeader, Header_Set; simpl.
    destruct (w_status w); simpl; by rewrite lookup_insert_eq.
  - intros Hw. unfold WriteHeader, Header_Set; simpl. by rewrite Hw.
  - exists u. unfold WriteHeader, Header_Set; simpl. by destruct (w_status w).
  - intros next r' w'' Hr'. unfold MustAuth, authHandler_ServeHTTP, Request_Cookie.
    rewrite Hr'. unfold cookies_of, WriteHeader, Header_Set; simpl.
    assert (is_Some (readCookie "auth"
              ((λ c, (c_name c, c_value c)) <$>
               w_set_cookies w ++
               [{| c_name := "auth"; c_value := name_MustBase64 L (user_Name L u);
                   c_path := "/" |}]))) as [v Hv].
    { rewrite fmap_app. simpl. apply readCookie_snoc. }
    destruct (w_status w); simpl; by rewrite Hv.
Qed.

Lemma callback_cookie_opens_chat_witness :
  w_header
    (WriteHeader StatusTemporaryRedirect
       (Header_Set "Location" "/chat"
          (SetCookie {| c_name := "auth"; c_value := "code=4="; c_path := "/" |}
             fresh_conn))) !! "Location" = Some ["/chat"] ∧
  (w_status fresh_conn = None →
   w_status
     (WriteHeader StatusTemporaryRedirect
        (Header_Set "Location" "/chat"
           (SetCookie {| c_name := "auth"; c_value := "code=4="; c_path := "/" |}
              fresh_conn))) = Some 307) ∧
  (∃ u, w_set_cookies
          (WriteHeader StatusTemporaryRedirect
             (Header_Set "Location" "/chat"
                (SetCookie {| c_name := "auth"; c_value := "code=4="; c_path := "/" |}
                   fresh_conn))) =
        w_set_cookies fresh_conn ++
        [{| c_name := "auth";
            c_value := name_MustBase64 toy_libraries (user_Name toy_libraries u);
            c_path := "/" |}]) ∧
  (∀ next r' w'',
     r_cookies r' =
     cookies_of
       (WriteHeader StatusTemporaryRedirect
          (Header_Set "Location" "/chat"
             (SetCookie {| c_name := "auth"; c_value := "code=4="; c_path := "/" |}
                fresh_conn))) →
     MustAuth next r' w'' = next r' w'').
Proof.
  apply (callback_cookie_opens_chat toy_libraries (get "/auth/callback/github" [])
           fresh_conn _ "github" "").
  - reflexivity.
  - reflexivity.
  - by left.
  - reflexivity.
Defined.

(** ** The template handler *)

(** X12. The template is read by the first request only: once a request
    has been served, with or without a panic, [once.Do] has run, and what
    the handler does with any later request is the same whatever the
    template files then are. *)
Theorem template_parsed_once (L : libraries) fs t r w fs1 fs2 r' w' :
  once_done (templateHandler_ServeHTTP L fs t r w).1 = true ∧
  templateHandler_ServeHTTP L fs1 (templateHandler_ServeHTTP L fs t r w).1 r' w' =
  templateHandler_ServeHTTP L fs2 (templateHandler_ServeHTTP L fs t r w).1 r' w'.
Proof.
  assert (once_done (templateHandler_ServeHTTP L fs t r w).1 = true) as Hdone.
  { unfold templateHandler_ServeHTTP, templateHandler_once.
    destruct (once_done t) eqn:Ho; simpl.
    - destruct (Request_Cookie "auth" r) as [v|e]; simpl; [|done].
      by destruct (MustFromBase64 L v).
    - destruct (ParseTemplate L fs (filename t)); simpl; [|done].
      destruct (Request_Cookie "auth" r) as [v|e]; simpl; [|done].
      by destruct (MustFromBase64 L v). }
  split; [done|].
  unfold templateHandler_ServeHTTP at 1 3, templateHandler_once.
  by rewrite Hdone.
Qed.

(** X13. A template that cannot be read when the first request comes is
    never looked for again: the first request panics in [template.Must],
    and every later request panics too, whatever the files then are. *)
Theorem template_failure_sticks (L : libraries) fs name r w fs' r' w' :
  ParseTemplate L fs name = None →
  (templateHandler_ServeHTTP L fs (new_templateHandler L name) r w).2 =
    Panicked (PanicError "template: ParseFiles") ∧
  ∃ v, (templateHandler_ServeHTTP L fs'
          (templateHandler_ServeHTTP L fs (new_templateHandler L name) r w).1
          r' w').2 = Panicked v.
Proof.
  intros Hnone. unfold templateHandler_ServeHTTP, templateHandler_once. simpl.
  rewrite Hnone. simpl. split; [done|].
  destruct (Request_Cookie "auth" r') as [v|e]; simpl.
  - destruct (MustFromBase64 L v); simpl; by eexists.
  - by eexists.
Qed.

Lemma template_failure_sticks_witness :
  (templateHandler_ServeHTTP toy_libraries tt
     (new_templateHandler toy_libraries "login.html")
     (get "/login" []) fresh_conn).2 =
    Panicked (PanicError "template: ParseFiles") ∧
  ∃ v, (templateHandler_ServeHTTP toy_libraries tt
          (templateHandler_ServeHTTP toy_libraries tt
             (new_templateHandler toy_libraries "login.html")
             (get "/login" []) fresh_conn).1
          (get "/login" []) fresh_conn).2 = Panicked v.
Proof.
  apply (template_failure_sticks toy_libraries tt "login.html"
           (get "/login" []) fresh_conn tt (get "/login" []) fresh_conn).
  reflexivity.
Defined.

(** X14. The chat page is rendered for a request that carries an [auth]
    cookie whose value decodes, and then always with the decoded user
    data; any other request that is answered gets the redirect to
    [/login]. *)
Theorem chat_page_needs_user_data (L : libraries) fs t r w w' :
  chat_page L fs t r w = Returned w' →
  (("auth" ∉ (r_cookies r).*1) ∧
   w' = WriteHeader StatusTemporaryRedirect (Header_Set "Location" "/login" w)) ∨
  (∃ v m tp, readCookie "auth" (r_cookies r) = Some v ∧
             MustFromBase64 L v = Some m ∧
             w' = Execute L tp (r_host r) (Some m) w).
Proof.
  unfold chat_page, MustAuth, authHandler_ServeHTTP.
  unfold templateHandler_ServeHTTP, Request_Cookie.
  destruct (readCookie "auth" (r_cookies r)) as [v|] eqn:Hc.
  - intros Hret. right.
    destruct (templateHandler_once L fs t) as [t1 [|]]; simpl in Hret; [done|].
    destruct (MustFromBase64 L v) as [m|] eqn:Hm; simpl in Hret; [|done].
    destruct (templ t1) as [tp|]; [|done].
    injection Hret as <-. by exists v, m, tp.
  - intros [= <-]. left. split; [by apply readCookie_None|done].
Qed.

Lemma chat_page_needs_user_data_witness :
  (("auth" ∉ (r_cookies (get "/chat" [("auth", "bob=")])).*1) ∧
   Fprintf "chat.html for localhost:8080" fresh_conn =
   WriteHeader StatusTemporaryRedirect (Header_Set "Location" "/login" fresh_conn)) ∨
  (∃ v m tp, readCookie "auth" (r_cookies (get "/chat" [("auth", "bob=")])) = Some v ∧
             MustFromBase64 toy_libraries v = Some m ∧
             Fprintf "chat.html for localhost:8080" fresh_conn =
             Execute toy_libraries tp (r_host (get "/chat" [("auth", "bob=")]))
               (Some m) fresh_conn).
Proof.
  apply (chat_page_needs_user_data toy_libraries tt
           (new_templateHandler toy_libraries "chat.html")
           (get "/chat" [("auth", "bob=")]) fresh_conn).
  reflexivity.
Defined.
